(** * skipmar: the seamless dual-video crossfade loop, the scroll-parallax
      progress calculators and the lead-submission stub

    Sources embedded here:
    - [Hero]'s [useEffect] (the crossfade controller and its [tick]),
    - [hooks/useParallax.ts] ([useScrollParallax], [useParallaxSection]),
    - [services/kommoService.ts] ([sendToKommo]).

    Numbers.  A JavaScript number is modelled by [num]: the three special
    values [NaN], [+Infinity], [-Infinity] and the finite values, which are
    carried as exact rationals.  The special values follow IEEE 754 (a
    division by zero, [Number.isFinite], comparisons with [NaN], [Math.max]
    and [Math.min] on [NaN]); the rounding of binary64 and the sign of zero
    are not modelled: finite arithmetic is exact. *)

From Stdlib Require Import QArith Qabs Qminmax Lqa Lia Bool List String.
From Stdlib Require Import PeanoNat.
Import ListNotations.

Local Open Scope Q_scope.

(** ** JavaScript numbers *)

Module JS.

Inductive num : Type :=
| NaN
| PInf
| NInf
| Fin (q : Q).

Definition isFinite (x : num) : bool :=
  match x with Fin _ => true | _ => false end.

Definition neg (x : num) : num :=
  match x with
  | NaN => NaN
  | PInf => NInf
  | NInf => PInf
  | Fin a => Fin (- a)
  end.

Definition add (x y : num) : num :=
  match x, y with
  | NaN, _ | _, NaN => NaN
  | PInf, NInf | NInf, PInf => NaN
  | PInf, _ | _, PInf => PInf
  | NInf, _ | _, NInf => NInf
  | Fin a, Fin b => Fin (a + b)
  end.

Definition sub (x y : num) : num := add x (neg y).

(** Sign of a finite value, as a comparison with zero. *)
Definition sgn (a : Q) : comparison := a ?= 0.

Definition mul (x y : num) : num :=
  match x, y with
  | NaN, _ | _, NaN => NaN
  | Fin a, Fin b => Fin (a * b)
  | PInf, Fin a | Fin a, PInf =>
      match sgn a with Eq => NaN | Gt => PInf | Lt => NInf end
  | NInf, Fin a | Fin a, NInf =>
      match sgn a with Eq => NaN | Gt => NInf | Lt => PInf end
  | PInf, PInf | NInf, NInf => PInf
  | PInf, NInf | NInf, PInf => NInf
  end.

(** Division: a finite value over zero is an infinity of its sign, zero over
    zero is [NaN], a finite value over an infinity is zero. *)
Definition div (x y : num) : num :=
  match x, y with
  | NaN, _ | _, NaN => NaN
  | Fin a, Fin b =>
      match sgn b with
      | Eq => match sgn a with Eq => NaN | Gt => PInf | Lt => NInf end
      | _ => Fin (a / b)
      end
  | Fin _, (PInf | NInf) => Fin 0
  | PInf, Fin b => match sgn b with Lt => NInf | _ => PInf end
  | NInf, Fin b => match sgn b with Lt => PInf | _ => NInf end
  | (PInf | NInf), (PInf | NInf) => NaN
  end.

(** [x <= y] as JavaScript evaluates it: false as soon as one side is [NaN]. *)
Definition leb (x y : num) : bool :=
  match x, y with
  | NaN, _ | _, NaN => false
  | NInf, _ => true
  | _, PInf => true
  | Fin a, Fin b => Qle_bool a b
  | PInf, _ => false
  | _, NInf => false
  end.

Definition geb (x y : num) : bool := leb y x.

(** [x > y]; not the negation of [leb] because of [NaN]. *)
Definition gtb (x y : num) : bool :=
  match x, y with
  | NaN, _ | _, NaN => false
  | _, _ => negb (leb x y)
  end.

Definition Math_max (x y : num) : num :=
  match x, y with
  | NaN, _ | _, NaN => NaN
  | _, _ => if leb x y then y else x
  end.

Definition Math_min (x y : num) : num :=
  match x, y with
  | NaN, _ | _, NaN => NaN
  | _, _ => if leb x y then x else y
  end.

Definition Math_abs (x : num) : num :=
  match x with
  | NaN => NaN
  | PInf | NInf => PInf
  | Fin a => Fin (Qabs a)
  end.

(** Equality of numbers up to the representation of a rational; [NaN] is
    related to itself here (this is the equality of the model, not [===]). *)
Definition eqv (x y : num) : Prop :=
  match x, y with
  | NaN, NaN | PInf, PInf | NInf, NInf => True
  | Fin a, Fin b => a == b
  | _, _ => False
  end.

(** The number lies in the closed interval [lo, hi]. *)
Definition within (lo hi : Q) (x : num) : Prop :=
  match x with
  | Fin a => lo <= a <= hi
  | _ => False
  end.

End JS.

Declare Scope js_scope.
Delimit Scope js_scope with js.
Bind Scope js_scope with JS.num.
Infix "+" := JS.add : js_scope.
Infix "-" := JS.sub : js_scope.
Infix "*" := JS.mul : js_scope.
Infix "/" := JS.div : js_scope.
Infix ">=?" := JS.geb (at level 70) : js_scope.
Infix ">?" := JS.gtb (at level 70) : js_scope.
Notation "# q" := (JS.Fin q%Q) (at level 5, q at level 1, format "# q") : js_scope.

Local Open Scope js_scope.

(** ** The crossfade controller of [Hero] *)

Module Hero.

Import JS.

(** [activeIdxRef] holds [0] or [1]: slot A or slot B. *)
Inductive slot : Type := A | B.

(** [idx === 0 ? 1 : 0] *)
Definition flip (i : slot) : slot :=
  match i with A => B | B => A end.

(** The part of an [HTMLVideoElement] the controller reads or writes, and
    what decides whether the element plays.  [autoplay] is the attribute of
    the markup (both [<video>] elements of the component carry [autoPlay]);
    [canAutoplay] is the element's can-autoplay flag, true on a new element
    and cleared by [pause()] and [play()]; [blocked] is the environment's
    autoplay policy for the element: when it holds, [play()] is refused and
    [paused] stays as it was.  [playCalls] counts the [play()] calls made on
    the element by the controller and [pendingPlay] the promises those calls
    returned that are not settled yet. *)
Record video : Type := mkVideo {
  currentTime : num;
  duration : num;
  paused : bool;
  loop : bool;
  muted : bool;
  playsInline : bool;
  rate : num;
  autoplay : bool;
  canAutoplay : bool;
  blocked : bool;
  playCalls : nat;
  pendingPlay : nat
}.

Definition set_currentTime (x : num) (v : video) : video :=
  mkVideo x (duration v) (paused v) (loop v) (muted v) (playsInline v)
          (rate v) (autoplay v) (canAutoplay v) (blocked v) (playCalls v)
          (pendingPlay v).

Definition set_loop (x : bool) (v : video) : video :=
  mkVideo (currentTime v) (duration v) (paused v) x (muted v) (playsInline v)
          (rate v) (autoplay v) (canAutoplay v) (blocked v) (playCalls v)
          (pendingPlay v).

Definition set_muted (x : bool) (v : video) : video :=
  mkVideo (currentTime v) (duration v) (paused v) (loop v) x (playsInline v)
          (rate v) (autoplay v) (canAutoplay v) (blocked v) (playCalls v)
          (pendingPlay v).

Definition set_playsInline (x : bool) (v : video) : video :=
  mkVideo (currentTime v) (duration v) (paused v) (loop v) (muted v) x
          (rate v) (autoplay v) (canAutoplay v) (blocked v) (playCalls v)
          (pendingPlay v).

Definition set_rate (x : num) (v : video) : video :=
  mkVideo (currentTime v) (duration v) (paused v) (loop v) (muted v)
          (playsInline v) x (autoplay v) (canAutoplay v) (blocked v)
          (playCalls v) (pendingPlay v).

(** [v.play()]: the call is made and returns a promise; playback starts
    (the element leaves the paused state) unless autoplay is blocked, in
    which case the promise will reject. *)
Definition play (v : video) : video :=
  mkVideo (currentTime v) (duration v)
          (if blocked v then paused v else false)
          (loop v) (muted v) (playsInline v) (rate v) (autoplay v) false
          (blocked v) (S (playCalls v)) (S (pendingPlay v)).

(** [v.pause()] *)
Definition pause (v : video) : video :=
  mkVideo (currentTime v) (duration v) true (loop v) (muted v)
          (playsInline v) (rate v) (autoplay v) false (blocked v)
          (playCalls v) (pendingPlay v).

(** Settings of the effect; the source fixes them as local constants
    ([hero_config]), the specification treats them as the configuration of
    the controller. *)
Record config : Type := mkConfig {
  playbackRate : Q;
  fadeSeconds : Q
}.

Definition hero_config : config := mkConfig 0.75 1.4.

(** The refs of the component, the two wrappers' [style.opacity] (the number
    whose [String] is stored), and the browser's side of the frame loop:
    [frames] are the ids of the [tick] callbacks registered with
    [requestAnimationFrame] and not run or cancelled yet, [nextFrame] the id
    the next registration returns, [metaA]/[metaB] whether [onMetaA]/[onMetaB]
    are registered for [loadedmetadata]. *)
Record world : Type := mkWorld {
  vA : video;
  vB : video;
  opA : num;
  opB : num;
  activeIdx : slot;
  isFading : bool;
  fadeStart : Q;
  rafRef : option nat;
  frames : list nat;
  nextFrame : nat;
  metaA : bool;
  metaB : bool
}.

Definition video_of (i : slot) (w : world) : video :=
  match i with A => vA w | B => vB w end.

Definition opacity_of (i : slot) (w : world) : num :=
  match i with A => opA w | B => opB w end.

Definition set_video (i : slot) (v : video) (w : world) : world :=
  match i with
  | A => mkWorld v (vB w) (opA w) (opB w) (activeIdx w) (isFading w)
                 (fadeStart w) (rafRef w) (frames w) (nextFrame w)
                 (metaA w) (metaB w)
  | B => mkWorld (vA w) v (opA w) (opB w) (activeIdx w) (isFading w)
                 (fadeStart w) (rafRef w) (frames w) (nextFrame w)
                 (metaA w) (metaB w)
  end.

Definition set_opacity (i : slot) (x : num) (w : world) : world :=
  match i with
  | A => mkWorld (vA w) (vB w) x (opB w) (activeIdx w) (isFading w)
                 (fadeStart w) (rafRef w) (frames w) (nextFrame w)
                 (metaA w) (metaB w)
  | B => mkWorld (vA w) (vB w) (opA w) x (activeIdx w) (isFading w)
                 (fadeStart w) (rafRef w) (frames w) (nextFrame w)
                 (metaA w) (metaB w)
  end.

Definition set_activeIdx (i : slot) (w : world) : world :=
  mkWorld (vA w) (vB w) (opA w) (opB w) i (isFading w) (fadeStart w)
          (rafRef w) (frames w) (nextFrame w) (metaA w) (metaB w).

Definition set_isFading (b : bool) (w : world) : world :=
  mkWorld (vA w) (vB w) (opA w) (opB w) (activeIdx w) b (fadeStart w)
          (rafRef w) (frames w) (nextFrame w) (metaA w) (metaB w).

Definition set_fadeStart (t : Q) (w : world) : world :=
  mkWorld (vA w) (vB w) (opA w) (opB w) (activeIdx w) (isFading w) t
          (rafRef w) (frames w) (nextFrame w) (metaA w) (metaB w).

Definition set_rafRef (r : option nat) (w : world) : world :=
  mkWorld (vA w) (vB w) (opA w) (opB w) (activeIdx w) (isFading w)
          (fadeStart w) r (frames w) (nextFrame w) (metaA w) (metaB w).

Definition set_frames (l : list nat) (n : nat) (w : world) : world :=
  mkWorld (vA w) (vB w) (opA w) (opB w) (activeIdx w) (isFading w)
          (fadeStart w) (rafRef w) l n (metaA w) (metaB w).

Definition set_listeners (la lb : bool) (w : world) : world :=
  mkWorld (vA w) (vB w) (opA w) (opB w) (activeIdx w) (isFading w)
          (fadeStart w) (rafRef w) (frames w) (nextFrame w) la lb.

Definition on_video (i : slot) (f : video -> video) (w : world) : world :=
  set_video i (f (video_of i w)) w.

(** *** The helpers of the effect *)

(** [applyRate] *)
Definition applyRate (cfg : config) (v : video) : video :=
  set_rate #(playbackRate cfg) v.

(** [setInitialVis]: A is visible, B hidden. *)
Definition setInitialVis (w : world) : world :=
  set_opacity B #0 (set_opacity A #1 w).

(** [safePlay]: [v.play()] inside [try], the promise awaited; a rejection
    is caught and ignored, so nothing of it reaches the caller. *)
Definition safePlay (v : video) : video := play v.

(** [resetVideo]: [v.pause(); v.currentTime = 0]. *)
Definition resetVideo (v : video) : video :=
  set_currentTime #0 (pause v).

(** [startOther]: [resetVideo(other); await safePlay(other)].  The caller
    does not await it ([void startOther(other)]): everything up to the call
    of [play()] runs inside the caller's frame, the promise stays pending. *)
Definition startOther (v : video) : video :=
  safePlay (resetVideo v).

(** [requestAnimationFrame(tick)] followed by the store into [rafRef]. *)
Definition requestFrame (w : world) : world :=
  let id := nextFrame w in
  set_rafRef (Some id) (set_frames (frames w ++ [id]) (S id) w).

(** The callback list without the callback [id]. *)
Definition dropFrame (id : nat) (w : world) : world :=
  set_frames (filter (fun j => negb (Nat.eqb j id)) (frames w)) (nextFrame w) w.

(** [cancelAnimationFrame(id)] *)
Definition cancelFrame (id : nat) (w : world) : world := dropFrame id w.

(** The browser takes the callback [id] off its list before it runs it. *)
Definition takeFrame (id : nat) (w : world) : world := dropFrame id w.

(** *** One frame: [tick] *)

(** [Math.max(0, dur - fadeSeconds)] *)
Definition triggerAt (cfg : config) (dur : num) : num :=
  Math_max #0 (dur - #(fadeSeconds cfg)).

(** The block under [// Crossfade trigger]; [now] is what
    [performance.now()] returns there. *)
Definition trigger_step (cfg : config) (now : Q) (w : world) : world :=
  let idx := activeIdx w in
  let active := video_of idx w in
  let dur := duration active in
  let ct := currentTime active in
  if negb (isFading w) && isFinite dur && (dur >? #0) then
    if ct >=? triggerAt cfg dur then
      on_video (flip idx) startOther (set_fadeStart now (set_isFading true w))
    else w
  else w.

(** Both guards of the trigger block together. *)
Definition triggers (cfg : config) (w : world) : bool :=
  let active := video_of (activeIdx w) w in
  negb (isFading w) && isFinite (duration active) && (duration active >? #0)
  && (currentTime active >=? triggerAt cfg (duration active)).

(** [t], [p] and [eased] of the block under [// Crossfade progress]. *)
Definition fade_t (cfg : config) (now start : Q) : num :=
  (#now - #start) / (#(fadeSeconds cfg) * #1000).

Definition fade_p (cfg : config) (now start : Q) : num :=
  Math_min #1 (Math_max #0 (fade_t cfg now start)).

Definition ease (p : num) : num := p * p * (#3 - #2 * p).

(** The block under [// Crossfade progress]; [idx] is the slot that was
    active when the frame started, [now] what [performance.now()] returns
    in this block. *)
Definition progress_step (cfg : config) (idx : slot) (now : Q) (w : world)
  : world :=
  if isFading w then
    let t := (#now - #(fadeStart w)) / (#(fadeSeconds cfg) * #1000) in
    let p := Math_min #1 (Math_max #0 t) in
    let eased := p * p * (#3 - #2 * p) in
    let w1 := set_opacity (flip idx) eased
                (set_opacity idx (#1 - eased) w) in
    if p >=? #1 then
      set_isFading false
        (set_activeIdx (flip idx) (on_video idx resetVideo w1))
    else w1
  else w.

(** [tick]: the trigger block, then the progress block, then the
    unconditional [rafRef.current = requestAnimationFrame(tick)].  [now1] and
    [now2] are the readings of [performance.now()] at its two call sites. *)
Definition tick (cfg : config) (now1 now2 : Q) (w : world) : world :=
  let idx := activeIdx w in
  requestFrame (progress_step cfg idx now2 (trigger_step cfg now1 w)).

(** *** The effect and its cleanup *)

Definition init_flags (w : world) : world :=
  on_video B (set_playsInline true)
    (on_video A (set_playsInline true)
       (on_video B (set_muted true) (on_video A (set_muted true) w))).

(** The body of [useEffect], with the four refs present.  With
    [shouldReduceMotion] it returns before any listener or frame callback is
    registered. *)
Definition mount (cfg : config) (shouldReduceMotion : bool) (w : world)
  : world :=
  let w := init_flags w in
  if shouldReduceMotion then
    let w := on_video A (set_loop true) w in
    let w := on_video B (set_loop false) w in
    let w := set_opacity A #1 w in
    let w := set_opacity B #0 w in
    let w := on_video A (set_rate #(playbackRate cfg)) w in
    on_video A play w
  else
    let w := on_video A (set_loop false) w in
    let w := on_video B (set_loop false) w in
    let w := on_video A (applyRate cfg) w in
    let w := on_video B (applyRate cfg) w in
    let w := set_listeners true true w in
    let w := setInitialVis w in
    let w := on_video B resetVideo w in
    let w := on_video A safePlay w in
    requestFrame w.

(** The cleanup the effect returns on its full path. *)
Definition unmount (w : world) : world :=
  let w := match rafRef w with
           | Some id => if Nat.eqb id 0 then w else cancelFrame id w
           | None => w
           end in
  set_listeners false false w.

(** The component before its effect runs: [useRef] initial values, the
    wrappers' opacity of the markup, no frame callback, ids from 1. *)
Definition fresh (a b : video) : world :=
  mkWorld a b #1 #0 A false 0%Q None [] 1%nat false false.

(** *** The environment and the frame loop *)

(** What the media pipeline may do to an element between two callbacks:
    playback position, duration, rate and the autoplay policy move freely,
    a playing element may stop, a pending [play()] promise may settle.  A
    paused element starts on its own only through its [autoplay] attribute,
    with the can-autoplay flag still set and autoplay not blocked.  The
    attributes the controller sets and the calls it made stay. *)
Record media_evolves (v v' : video) : Prop := {
  ev_loop : loop v' = loop v;
  ev_muted : muted v' = muted v;
  ev_playsInline : playsInline v' = playsInline v;
  ev_autoplay : autoplay v' = autoplay v;
  ev_canAutoplay : canAutoplay v' = canAutoplay v;
  ev_start :
    paused v = true -> paused v' = false ->
    autoplay v && canAutoplay v && negb (blocked v) = true;
  ev_playCalls : playCalls v' = playCalls v;
  ev_pending : (pendingPlay v' <= pendingPlay v)%nat
}.

Definition with_videos (a b : video) (w : world) : world :=
  set_video B b (set_video A a w).

Inductive step (cfg : config) : world -> world -> Prop :=
| step_media w a b :
    media_evolves (vA w) a -> media_evolves (vB w) b ->
    step cfg w (with_videos a b w)
| step_frame w id now1 now2 :
    In id (frames w) ->
    step cfg w (tick cfg now1 now2 (takeFrame id w))
| step_metaA w :
    metaA w = true -> step cfg w (on_video A (applyRate cfg) w)
| step_metaB w :
    metaB w = true -> step cfg w (on_video B (applyRate cfg) w).

Inductive steps (cfg : config) : world -> world -> Prop :=
| steps_refl w : steps cfg w w
| steps_next w w1 w2 : steps cfg w w1 -> step cfg w1 w2 -> steps cfg w w2.

(** What the environment and the event handlers leave alone between two
    frames: the refs of the fade. *)
Definition same_refs (w w' : world) : Prop :=
  activeIdx w' = activeIdx w /\ isFading w' = isFading w /\
  fadeStart w' = fadeStart w.

(** What holds of every world of a reduced-motion session. *)
Record reduced_inv (bCalls : nat) (w : world) : Prop := {
  ri_fading : isFading w = false;
  ri_active : activeIdx w = A;
  ri_frames : frames w = [];
  ri_raf : rafRef w = None;
  ri_metaA : metaA w = false;
  ri_metaB : metaB w = false;
  ri_opA : opA w = #1;
  ri_opB : opB w = #0;
  ri_loopA : loop (vA w) = true;
  ri_loopB : loop (vB w) = false;
  ri_callsB : playCalls (vB w) = bCalls
}.

(** On the full path the effect pauses element B ([resetVideo(b)]), which
    clears its can-autoplay flag. *)
Record waits (bCalls : nat) (w : world) : Prop := {
  wt_flag : canAutoplay (vB w) = false;
  wt_calls : (bCalls <= playCalls (vB w))%nat;
  wt_paused : playCalls (vB w) = bCalls -> paused (vB w) = true
}.

End Hero.

(** ** The scroll-parallax progress calculators of [hooks/useParallax.ts] *)

Module Parallax.

Import JS.

(** The part of a [DOMRect] the calculators read; its coordinates are
    finite. *)
Record rect : Type := mkRect {
  top : Q;
  height : Q
}.

(** What one run of [updateParallax] hands to [setTransform], before it is
    formatted into the CSS string. *)
Record transform : Type := mkTransform {
  progress : num;
  translateY : num;
  scale : num
}.

(** [useScrollParallax]'s [updateParallax], the part behind the visibility
    guard; [innerHeight] is [window.innerHeight]. *)
Definition cardParallax (translateYRange : Q) (enableZoom : bool)
  (innerHeight : Q) (cardRect : rect) : transform :=
  let viewportHeight := #innerHeight in
  let viewportCenter := viewportHeight / #2 in
  let cardCenter := #(top cardRect) + #(height cardRect) / #2 in
  let rawProgress := (viewportCenter - cardCenter) / viewportHeight in
  let progress := Math_max (neg #1) (Math_min #1 rawProgress) in
  let translateY := progress * #translateYRange in
  let scale :=
    if enableZoom then #1.05 + (#1 - Math_abs progress) * #0.02
    else #1.05 in
  mkTransform progress translateY scale.

(** [useParallaxSection]'s [updateParallax], behind its visibility guard;
    it has no zoom, the scale is left to the style sheet. *)
Definition sectionParallax (translateYRange : Q) (innerHeight : Q)
  (r : rect) : num * num :=
  let viewportHeight := #innerHeight in
  let viewportCenter := viewportHeight / #2 in
  let sectionCenter := #(top r) + #(height r) / #2 in
  let rawProgress := (viewportCenter - sectionCenter) / viewportHeight in
  let progress := Math_max (neg #1) (Math_min #1 rawProgress) in
  let translateY := progress * #translateYRange in
  (progress, translateY).

End Parallax.

(** ** [sendToKommo] of [services/kommoService.ts] *)

Module Kommo.

(** The [service] field of a form payload. *)
Inductive service : Type :=
| WorkforceRental
| Supplies
| WeldingCoordination.

(** [FormData] of the types file, without the file attachment. *)
Record FormData : Type := mkFormData {
  name : string;
  email : string;
  phone : option string;
  fd_service : service;
  partNumber : option string;
  message : option string
}.

(** What the function does to the outside, in order. *)
Inductive event : Type :=
| ConsoleLog (msg : string) (data : FormData)
| ConsoleError (msg : string) (error : string)
| Timeout (ms : nat).

(** How a promise settles. *)
Inductive settled (T : Type) : Type :=
| Fulfilled (v : T)
| Rejected (err : string).

Arguments Fulfilled {T} v.
Arguments Rejected {T} err.

(** An asynchronous computation: the events it performs on top of the ones
    before it, and how it settles. *)
Definition async (T : Type) : Type := list event -> list event * settled T.

Definition ret {T} (v : T) : async T := fun tr => (tr, Fulfilled v).

Definition bind {T U} (m : async T) (k : T -> async U) : async U :=
  fun tr =>
    match m tr with
    | (tr', Fulfilled v) => k v tr'
    | (tr', Rejected e) => (tr', Rejected e)
    end.

Definition emit (e : event) : async unit := fun tr => (tr ++ [e], Fulfilled tt).

(** [try { body } catch (error) { handler }] *)
Definition try_catch {T} (body : async T) (handler : string -> async T)
  : async T :=
  fun tr =>
    match body tr with
    | (tr', Fulfilled v) => (tr', Fulfilled v)
    | (tr', Rejected e) => handler e tr'
    end.

Notation "m ;;; k" := (bind m (fun _ => k))
  (at level 61, right associativity).

(** [await new Promise(resolve => setTimeout(resolve, ms))]: the timer
    fires and the promise fulfils. *)
Definition sleep (ms : nat) : async unit := emit (Timeout ms).

Definition sendToKommo (data : FormData) : async bool :=
  emit (ConsoleLog "Sending data to Kommo CRM integration..."%string data) ;;;
  sleep 1500 ;;;
  try_catch
    (ret true)
    (fun error =>
       emit (ConsoleError "Error sending lead to Kommo:"%string error) ;;;
       ret false).

End Kommo.

(** ** The specification's formulas, on the reals (carried by [Q]) *)

Module Spec.

(** [clamp(x, lo, hi)] *)
Definition clamp (x lo hi : Q) : Q := Qmax lo (Qmin hi x).

(** [p = clamp((now - fadeStartTime) / (fadeDurationSeconds * 1000), 0, 1)] *)
Definition p (fadeDurationSeconds now fadeStartTime : Q) : Q :=
  clamp ((now - fadeStartTime) / (fadeDurationSeconds * 1000))%Q 0%Q 1%Q.

(** [eased = p^2 * (3 - 2p)] *)
Definition eased (p : Q) : Q := (p ^ 2 * (3 - 2 * p))%Q.

(** [triggerPoint = max(0, duration - fadeDurationSeconds)] *)
Definition triggerPoint (duration fadeDurationSeconds : Q) : Q :=
  Qmax 0%Q (duration - fadeDurationSeconds)%Q.

(** [clamp((viewportCenter - elementCenter) / viewportHeight, -1, 1)], the
    viewport centre being half the viewport height and the element centre
    the element's top plus half its height. *)
Definition progress (viewportHeight : Q) (r : Parallax.rect) : Q :=
  let viewportCenter := (viewportHeight / 2)%Q in
  let elementCenter := (Parallax.top r + Parallax.height r / 2)%Q in
  clamp ((viewportCenter - elementCenter) / viewportHeight)%Q (-1)%Q 1%Q.

End Spec.

(** ** Concrete elements and worlds, for evaluation *)

Module Examples.

Import JS Hero.

(** A ten-second clip playing at position [ct]. *)
Definition playing (ct : Q) : video :=
  mkVideo #ct #10 false false true true #0.75 true false false 1 0.

(** The same clip, paused at its start by [resetVideo] and never played. *)
Definition idle : video :=
  mkVideo #0 #10 true false true true #0.75 true false false 0 0.

(** An element as the markup renders it, before its metadata has loaded:
    [autoPlay], paused, the duration [NaN]. *)
Definition unloaded : video :=
  mkVideo #0 NaN true false false false #1 true true false 0 0.

(** Slot A active and playing at [ct], slot B idle, no fade, as a frame
    callback finds it. *)
Definition w_play (ct : Q) : world :=
  mkWorld (playing ct) idle #1 #0 A false 0%Q (Some 1%nat) [] 2%nat true true.

(** A fade from A to B that began at time [start]. *)
Definition w_fade (start : Q) : world :=
  mkWorld (playing 9) (playing 0.4) #1 #0 A true start (Some 1%nat) []
          2%nat true true.

(** The settings of the end-to-end scenario: rate 1, fade 1.4 s. *)
Definition scenario_config : config := mkConfig 1 1.4.

End Examples.

(** ** What the full path of the effect keeps *)

Module HeroInv.

Import JS Hero.

(** Exactly one [tick] callback is registered, [rafRef] holds its id, and
    both metadata listeners are attached. *)
Definition one_frame (w : world) : Prop :=
  (exists id, (1 <= id)%nat /\ frames w = [id] /\ rafRef w = Some id /\
              nextFrame w = S id) /\
  metaA w = true /\ metaB w = true.

(** Outside a fade the active layer is opaque and the other transparent. *)
Definition settled_layers (w : world) : Prop :=
  isFading w = false ->
  eqv (opacity_of (activeIdx w) w) #1 /\
  eqv (opacity_of (flip (activeIdx w)) w) #0.

(** Neither element can start through its [autoplay] attribute any more,
    and outside a fade the inactive element is paused. *)
Definition idle_other (w : world) : Prop :=
  canAutoplay (vA w) = false /\ canAutoplay (vB w) = false /\
  (isFading w = false -> paused (video_of (flip (activeIdx w)) w) = true).

(** The element with another autoplay policy. *)
Definition set_blocked (x : bool) (v : video) : video :=
  mkVideo (currentTime v) (duration v) (paused v) (loop v) (muted v)
          (playsInline v) (rate v) (autoplay v) (canAutoplay v) x
          (playCalls v) (pendingPlay v).

(** What of a world shows on screen or steers the loop: the opacities and
    the refs. *)
Definition view (w : world) : num * num * slot * bool * Q * option nat :=
  (opA w, opB w, activeIdx w, isFading w, fadeStart w, rafRef w).

End HeroInv.

(** ** A session of the full path, for evaluation *)

Module Session.

Import JS Hero HeroInv.

(** The effect has run on the elements as rendered. *)
Definition s0 : world :=
  mount hero_config false (fresh Examples.unloaded Examples.unloaded).

(** Element A with its metadata loaded, playing at 9 s of 10 s. *)
Definition a1 : video :=
  mkVideo #9 #10 false false true true #0.75 true false false 1 1.

(** Element B with its metadata loaded, still paused at 0. *)
Definition b1 : video :=
  mkVideo #0 #10 true false true true #0.75 true false false 0 0.

Definition s1 : world := with_videos a1 b1 s0.

(** The frame at 1000 ms begins the fade, the frame at 2400 ms completes
    it. *)
Definition s2 : world := tick hero_config 1000 1000 (takeFrame 1 s1).
Definition s3 : world := tick hero_config 2400 2400 (takeFrame 2 s2).

(** Slot A playing at 9 s of 10 s while [play()] is refused on element B. *)
Definition w_refused : world :=
  on_video B (set_blocked true) (Examples.w_play 9).

End Session.

(** ** The pointer tilt of [usePointerParallax] *)

Module Pointer.

Import JS.

(** The part of the card's [DOMRect] that [handleMouseMove] reads. *)
Record cardRect : Type := mkCardRect {
  left : Q;
  top : Q;
  width : Q;
  height : Q
}.

(** What [handleMouseMove] hands to [setStyle] and [setImageStyle], before
    it is formatted: two rotations in degrees, two offsets in pixels. *)
Record tilt : Type := mkTilt {
  rotateX : num;
  rotateY : num;
  imageOffsetX : num;
  imageOffsetY : num
}.

(** [handleMouseMove]; [clientX], [clientY] are the pointer's coordinates. *)
Definition handleMouseMove (clientX clientY : Q) (rect : cardRect) : tilt :=
  let x := #clientX - #(left rect) in
  let y := #clientY - #(top rect) in
  let centerX := #(width rect) / #2 in
  let centerY := #(height rect) / #2 in
  let rotateX := ((y - centerY) / centerY) * #(-2) in
  let rotateY := ((x - centerX) / centerX) * #2 in
  let imageOffsetX := ((x - centerX) / centerX) * #8 in
  let imageOffsetY := ((y - centerY) / centerY) * #8 in
  mkTilt rotateX rotateY imageOffsetX imageOffsetY.

(** [handleMouseLeave] *)
Definition handleMouseLeave : tilt := mkTilt #0 #0 #0 #0.

End Pointer.

(** ** The frame scheduling of [useScrollParallax] and [useParallaxSection]

    The two hooks schedule their [updateParallax] with the same code; they
    differ in what [updateParallax] computes, which is the parameter
    [compute] here. *)

Module Scheduler.

Import JS.

Section Hook.

(** The value handed to [setTransform]. *)
Variable T : Type.

(** The computation of [updateParallax] behind its visibility guard, from
    [window.innerHeight] and the observed element's rectangle. *)
Variable compute : Q -> Parallax.rect -> T.

(** [isVisibleRef], [rafIdRef], the hook's [transform] state ([None] is the
    static initial string), the browser's list of [updateParallax]
    callbacks not run or cancelled yet with the id the next registration
    returns, and whether the observer and the scroll listener are
    attached. *)
Record state : Type := mkState {
  isVisible : bool;
  rafId : option nat;
  transform : option T;
  pending : list nat;
  nextId : nat;
  attached : bool
}.

(** The refs of a newly rendered component. *)
Definition initial : state := mkState false None None [] 1%nat false.

(** Whether [rafIdRef.current] is truthy: neither [null] nor [0]. *)
Definition truthy (r : option nat) : bool :=
  match r with
  | Some (S _) => true
  | _ => false
  end.

(** [rafIdRef.current = requestAnimationFrame(updateParallax)] *)
Definition requestFrame (s : state) : state :=
  mkState (isVisible s) (Some (nextId s)) (transform s)
          (pending s ++ [nextId s]) (S (nextId s)) (attached s).

Definition dropFrame (id : nat) (s : state) : state :=
  mkState (isVisible s) (rafId s) (transform s)
          (filter (fun j => negb (Nat.eqb j id)) (pending s))
          (nextId s) (attached s).

(** [cancelAnimationFrame(rafIdRef.current)] *)
Definition cancelCurrent (s : state) : state :=
  match rafId s with
  | Some id => dropFrame id s
  | None => s
  end.

Definition set_rafId (r : option nat) (s : state) : state :=
  mkState (isVisible s) r (transform s) (pending s) (nextId s) (attached s).

Definition set_isVisible (b : bool) (s : state) : state :=
  mkState b (rafId s) (transform s) (pending s) (nextId s) (attached s).

Definition set_transform (t : T) (s : state) : state :=
  mkState (isVisible s) (rafId s) (Some t) (pending s) (nextId s)
          (attached s).

Definition set_attached (b : bool) (s : state) : state :=
  mkState (isVisible s) (rafId s) (transform s) (pending s) (nextId s) b.

(** [updateParallax]; [innerHeight] and [r] are what the window and the
    observed element report when it runs. *)
Definition updateParallax (innerHeight : Q) (r : Parallax.rect) (s : state)
  : state :=
  if negb (isVisible s) then set_rafId None s
  else requestFrame (set_transform (compute innerHeight r) s).

(** The body of the observer callback's [forEach], for one entry. *)
Definition onEntry (isIntersecting : bool) (s : state) : state :=
  let s := set_isVisible isIntersecting s in
  if isIntersecting then
    if negb (truthy (rafId s)) then requestFrame s else s
  else
    if truthy (rafId s) then set_rafId None (cancelCurrent s) else s.

(** The [IntersectionObserver] callback. *)
Definition onIntersection (entries : list bool) (s : state) : state :=
  fold_left (fun s e => onEntry e s) entries s.

(** [handleScroll] *)
Definition handleScroll (s : state) : state :=
  if isVisible s && negb (truthy (rafId s)) then requestFrame s else s.

(** The effect, with both refs present: nothing under
    [prefers-reduced-motion], else the observer and the scroll listener are
    attached and [updateParallax] is called once. *)
Definition mount (prefersReducedMotion : bool) (innerHeight : Q)
  (r : Parallax.rect) (s : state) : state :=
  if prefersReducedMotion then s
  else updateParallax innerHeight r (set_attached true s).

(** The effect's cleanup. *)
Definition cleanup (s : state) : state :=
  let s := set_attached false s in
  if truthy (rafId s) then cancelCurrent s else s.

(** What can happen while the hook is attached: an observer callback, a
    scroll event, and the browser running a registered callback, which it
    takes off its list first. *)
Inductive step : state -> state -> Prop :=
| step_observe s entries :
    attached s = true -> step s (onIntersection entries s)
| step_scroll s :
    attached s = true -> step s (handleScroll s)
| step_frame s id innerHeight r :
    In id (pending s) ->
    step s (updateParallax innerHeight r (dropFrame id s)).

Inductive steps : state -> state -> Prop :=
| steps_refl s : steps s s
| steps_next s s1 s2 : steps s s1 -> step s1 s2 -> steps s s2.

(** The scheduling discipline: while the element is visible exactly one
    callback is registered and [rafIdRef] holds its id; while it is not,
    none is and [rafIdRef] is [null]. *)
Definition scheduled (s : state) : Prop :=
  (1 <= nextId s)%nat /\
  ((isVisible s = true /\
    exists id, (1 <= id)%nat /\ rafId s = Some id /\ pending s = [id]) \/
   (isVisible s = false /\ rafId s = None /\ pending s = [])).

End Hook.

Arguments isVisible {T} s.
Arguments rafId {T} s.
Arguments transform {T} s.
Arguments pending {T} s.
Arguments nextId {T} s.
Arguments attached {T} s.
Arguments initial {T}.
Arguments cleanup {T} s.
Arguments handleScroll {T} s.
Arguments onIntersection {T} entries s.
Arguments scheduled {T} s.

(** [useScrollParallax] *)
Definition cardHook (translateYRange : Q) (enableZoom : bool)
  : Q -> Parallax.rect -> Parallax.transform :=
  Parallax.cardParallax translateYRange enableZoom.

(** [useParallaxSection] *)
Definition sectionHook (translateYRange : Q)
  : Q -> Parallax.rect -> num * num :=
  Parallax.sectionParallax translateYRange.

End Scheduler.

(** A hook session, for evaluation: the card scrolls into view, a frame
    runs, the card leaves the view. *)
Module HookSession.

Import Scheduler.

Definition compute := cardHook 14 true.
Definition geometry : Parallax.rect := Parallax.mkRect 100 300.

Definition h0 : state Parallax.transform :=
  mount _ compute false 800 geometry initial.
Definition h1 := onIntersection [true] h0.
Definition h2 := updateParallax _ compute 800 geometry (dropFrame _ 1 h1).
Definition h3 := onIntersection [false] h2.

End HookSession.

(** ** The contact form's [handleSubmit] *)

Module Contact.

Import Kommo.

(** The form's [status] state. *)
Inductive status : Type := Idle | Submitting | Success.

(** [handleSubmit], over the submission function it awaits ([sendToKommo] in
    the source): the status it leaves, the events performed, and how its own
    promise settles. *)
Definition handleSubmit (send : FormData -> async bool) (formData : FormData)
  (tr : list event) : status * list event * settled unit :=
  let st := Submitting in
  match send formData tr with
  | (tr', Fulfilled _) => (Success, tr', Fulfilled tt)
  | (tr', Rejected e) => (st, tr', Rejected e)
  end.

End Contact.

(** ** [initKommoWidget] *)

Module Widget.

(** The value of [window.amoSocialButton]: absent, the queueing stub that
    [initKommoWidget] installs (with its [q] property, absent until the
    first call), or some other truthy value put there before. *)
Inductive global : Type :=
| Absent
| Stub (q : option (list (list string)))
| Other.

(** An element of the document, as far as the function is concerned. *)
Record element : Type := mkElement {
  tagName : string;
  id : string;
  src : string;
  async : bool
}.

(** The page: the global and the document's elements in tree order. *)
Record page : Type := mkPage {
  amoSocialButton : global;
  elements : list element
}.

Definition isTag (c : string) (e : element) : bool := String.eqb (tagName e) c.

(** [t] placed right before the first element with tag [c]; nothing when
    there is none ([e] is [undefined]). *)
Fixpoint insertBeforeFirst (c : string) (t : element) (l : list element)
  : list element :=
  match l with
  | [] => []
  | e :: rest =>
      if isTag c e then t :: e :: rest
      else e :: insertBeforeFirst c t rest
  end.

(** The script element the function creates. *)
Definition loader : element :=
  mkElement "script" "amo_social_button"
            "https://gso.kommo.com/js/button.js" true.

(** [initKommoWidget]; [hasWindow] is [typeof window !== 'undefined']. *)
Definition initKommoWidget (hasWindow : bool) (p : page) : page :=
  if hasWindow then
    let g := match amoSocialButton p with
             | Absent => Stub None
             | g => g
             end in
    mkPage g (insertBeforeFirst "script" loader (elements p))
  else p.

(** A call [window.amoSocialButton(...args)] while the stub is installed:
    [(a[o].q = a[o].q || []).push(arguments)]. *)
Definition callGlobal (args : list string) (p : page) : page :=
  match amoSocialButton p with
  | Stub q =>
      mkPage (Stub (Some (match q with Some l => l | None => [] end
                          ++ [args])))
             (elements p)
  | _ => p
  end.

(** The calls waiting in the stub's queue. *)
Definition queued (p : page) : list (list string) :=
  match amoSocialButton p with
  | Stub (Some l) => l
  | _ => []
  end.

(** The number of elements of the page with the widget script's id. *)
Definition loaders (p : page) : nat :=
  List.length (filter (fun e => String.eqb (id e) "amo_social_button")
                      (elements p)).

(** Whether the document has a script element. *)
Definition hasScript (p : page) : bool :=
  existsb (isTag "script") (elements p).

End Widget.

(** ** Facts about the number model *)

Section NumFacts.

Import JS.

Lemma sgn_Eq (a : Q) : sgn a = Eq <-> (a == 0)%Q.
Proof. unfold sgn. symmetry. apply Qeq_alt. Qed.

Lemma div_Fin (a b : Q) : ~ (b == 0)%Q -> #a / #b = #(a / b).
Proof.
  intros Hb. unfold div.
  destruct (sgn b) eqn:E; try reflexivity.
  apply sgn_Eq in E. contradiction.
Qed.

Lemma leb_Fin (a b : Q) : leb #a #b = true <-> (a <= b)%Q.
Proof. simpl. apply Qle_bool_iff. Qed.

Lemma leb_Fin_false (a b : Q) : leb #a #b = false <-> (b < a)%Q.
Proof.
  simpl. split; intros H.
  - apply Qnot_le_lt. intros Hle. apply Qle_bool_iff in Hle. congruence.
  - destruct (Qle_bool a b) eqn:E; [|reflexivity].
    apply Qle_bool_iff in E. exfalso. apply (Qlt_not_le _ _ H E).
Qed.

(** [Math.min(1, Math.max(0, t))] of a finite [t] is the clamp of [t]. *)
Lemma clamp01_Fin (t : Q) :
  exists c : Q,
    Math_min #1 (Math_max #0 #t) = #c /\
    (c == Spec.clamp t 0 1)%Q /\ (0 <= c <= 1)%Q.
Proof.
  unfold Spec.clamp.
  unfold Math_max.
  destruct (leb #0 #t) eqn:E0.
  - apply leb_Fin in E0. unfold Math_min.
    destruct (leb #1 #t) eqn:E1.
    + apply leb_Fin in E1. exists 1%Q. split; [reflexivity|].
      split; [|lra].
      rewrite (Q.min_l 1 t) by assumption.
      rewrite Q.max_r; lra.
    + apply leb_Fin_false in E1. exists t. split; [reflexivity|].
      split; [|lra].
      rewrite (Q.min_r 1 t) by lra.
      rewrite Q.max_r; lra.
  - apply leb_Fin_false in E0. unfold Math_min.
    destruct (leb #1 #0) eqn:E1.
    + apply leb_Fin in E1. lra.
    + exists 0%Q. split; [reflexivity|]. split; [|lra].
      rewrite (Q.min_r 1 t) by lra.
      rewrite Q.max_l; lra.
Qed.

End NumFacts.

(** ** The crossfade: one frame *)

Section FadeFrame.

Import JS Hero.

Variable cfg : config.

(** The progress block in terms of [fade_p] and [ease]. *)
Lemma progress_step_eq (idx : slot) (now : Q) (w : world) :
  progress_step cfg idx now w =
  if isFading w then
    let p := fade_p cfg now (fadeStart w) in
    let w1 := set_opacity (flip idx) (ease p)
                (set_opacity idx (#1 - ease p) w) in
    if p >=? #1 then
      set_isFading false
        (set_activeIdx (flip idx) (on_video idx resetVideo w1))
    else w1
  else w.
Proof. reflexivity. Qed.

(** The refs and opacities a frame leaves behind do not depend on the
    rescheduling. *)
Lemma isFading_requestFrame (w : world) :
  isFading (requestFrame w) = isFading w.
Proof. reflexivity. Qed.

Lemma opacity_requestFrame (i : slot) (w : world) :
  opacity_of i (requestFrame w) = opacity_of i w.
Proof. destruct i; reflexivity. Qed.

(** What a frame that reaches the progress block leaves in the two
    wrappers. *)
Lemma tick_opacities (now1 now2 : Q) (w : world) :
  isFading (trigger_step cfg now1 w) = true ->
  let p := fade_p cfg now2 (fadeStart (trigger_step cfg now1 w)) in
  opacity_of (activeIdx w) (tick cfg now1 now2 w) = #1 - ease p /\
  opacity_of (flip (activeIdx w)) (tick cfg now1 now2 w) = ease p.
Proof.
  intros H p. unfold tick.
  rewrite !opacity_requestFrame, progress_step_eq, H.
  fold p. cbv zeta.
  destruct (p >=? #1); destruct (activeIdx w); split; reflexivity.
Qed.

(** With a non-zero fade duration the elapsed fraction is finite and is the
    specification's [p]. *)
Lemma fade_p_spec (now start : Q) :
  ~ (fadeSeconds cfg == 0)%Q ->
  exists c : Q,
    fade_p cfg now start = #c /\
    (c == Spec.p (fadeSeconds cfg) now start)%Q /\ (0 <= c <= 1)%Q.
Proof.
  intros Hf. unfold fade_p, fade_t, Spec.p.
  assert (Hd : ~ (fadeSeconds cfg * 1000 == 0)%Q) by lra.
  change (#(fadeSeconds cfg) * #1000) with #(fadeSeconds cfg * 1000).
  change (#now - #start) with #(now - start).
  rewrite (div_Fin _ _ Hd).
  apply clamp01_Fin.
Qed.

Lemma ease_Fin (c : Q) : ease #c = #(c * c * (3 + - (2 * c))).
Proof. reflexivity. Qed.

Lemma ease_spec (c c' : Q) :
  (c == c')%Q -> (c * c * (3 + - (2 * c)) == Spec.eased c')%Q.
Proof. intros E. unfold Spec.eased. rewrite E. ring. Qed.

(** The smoothstep polynomial stays in [0, 1] on [0, 1] and grows there. *)
Lemma eased_bounds (c : Q) :
  (0 <= c <= 1)%Q -> (0 <= Spec.eased c <= 1)%Q.
Proof.
  intros [H0 H1]. unfold Spec.eased. split.
  - assert (0 <= c * c)%Q by nra. assert (1 <= 3 - 2 * c)%Q by lra.
    setoid_replace (c ^ 2)%Q with (c * c)%Q by ring. nra.
  - setoid_replace (c ^ 2 * (3 - 2 * c))%Q
      with (1 - (1 - c) * (1 - c) * (1 + 2 * c))%Q by ring.
    assert (0 <= (1 - c) * (1 - c))%Q by nra.
    assert (0 <= 1 + 2 * c)%Q by lra.
    assert (0 <= (1 - c) * (1 - c) * (1 + 2 * c))%Q by nra.
    lra.
Qed.

Lemma eased_mono (c d : Q) :
  (0 <= c)%Q -> (c <= d)%Q -> (d <= 1)%Q ->
  (Spec.eased c <= Spec.eased d)%Q.
Proof.
  intros H0 Hcd H1. unfold Spec.eased.
  assert (E : (d ^ 2 * (3 - 2 * d) - c ^ 2 * (3 - 2 * c) ==
               (d - c) * (c * (3 - 2 * c - d) + d * (3 - 2 * d - c)))%Q)
    by ring.
  assert (0 <= c * (3 - 2 * c - d))%Q by nra.
  assert (0 <= d * (3 - 2 * d - c))%Q by nra.
  assert (0 <= (d - c) * (c * (3 - 2 * c - d) + d * (3 - 2 * d - c)))%Q
    by nra.
  lra.
Qed.

(** The opacities of a fading frame, against the specification's formulas. *)
Lemma tick_opacities_spec (now1 now2 : Q) (w : world) :
  (0 < fadeSeconds cfg)%Q ->
  isFading (trigger_step cfg now1 w) = true ->
  let start := fadeStart (trigger_step cfg now1 w) in
  let e := Spec.eased (Spec.p (fadeSeconds cfg) now2 start) in
  eqv (opacity_of (activeIdx w) (tick cfg now1 now2 w)) #(1 - e) /\
  eqv (opacity_of (flip (activeIdx w)) (tick cfg now1 now2 w)) #e.
Proof.
  intros Hf H start e.
  destruct (tick_opacities now1 now2 w H) as [Ha Ho].
  fold start in Ha, Ho.
  assert (Hnz : ~ (fadeSeconds cfg == 0)%Q) by lra.
  destruct (fade_p_spec now2 start Hnz) as (c & Ec & Hc & _).
  rewrite Ec, ease_Fin in Ha, Ho.
  pose proof (ease_spec c _ Hc) as He. fold e in He.
  rewrite Ha, Ho. simpl. split; lra.
Qed.

(** A frame whose progress block finds [p >= 1] swaps the roles. *)
Lemma tick_swaps (now1 now2 : Q) (w : world) :
  let w1 := trigger_step cfg now1 w in
  let w' := tick cfg now1 now2 w in
  isFading w1 = true ->
  (fade_p cfg now2 (fadeStart w1) >=? #1) = true ->
  activeIdx w' = flip (activeIdx w) /\ isFading w' = false /\
  video_of (activeIdx w) w' = resetVideo (video_of (activeIdx w) w1).
Proof.
  intros w1 w' H Hp. unfold w', tick. fold w1.
  rewrite progress_step_eq, H. cbv zeta. rewrite Hp.
  destruct (activeIdx w); repeat split; reflexivity.
Qed.

(** Whether a frame ends inside a fade. *)
Lemma tick_isFading (now1 now2 : Q) (w : world) :
  let w1 := trigger_step cfg now1 w in
  isFading (tick cfg now1 now2 w) =
  isFading w1 && negb (fade_p cfg now2 (fadeStart w1) >=? #1).
Proof.
  intros w1. unfold tick. fold w1.
  rewrite isFading_requestFrame, progress_step_eq.
  destruct (isFading w1) eqn:E; [|exact E]. cbv zeta.
  destruct (fade_p cfg now2 (fadeStart w1) >=? #1);
    destruct (activeIdx w); simpl; try reflexivity; exact E.
Qed.

Lemma clamp_mono (t t' : Q) :
  (t <= t')%Q -> (Spec.clamp t 0 1 <= Spec.clamp t' 0 1)%Q.
Proof.
  intros H. unfold Spec.clamp.
  apply Q.max_le_compat_l, Q.min_le_compat_l, H.
Qed.

Lemma spec_p_mono (now now' start : Q) :
  (0 < fadeSeconds cfg)%Q -> (now <= now')%Q ->
  (Spec.p (fadeSeconds cfg) now start <=
   Spec.p (fadeSeconds cfg) now' start)%Q.
Proof.
  intros Hf H. unfold Spec.p. apply clamp_mono.
  unfold Qdiv. apply Qmult_le_compat_r; [lra|].
  apply Qlt_le_weak, Qinv_lt_0_compat. lra.
Qed.

(** A frame that starts inside a fade skips the trigger block. *)
Lemma trigger_step_fading (now : Q) (w : world) :
  isFading w = true -> trigger_step cfg now w = w.
Proof. intros H. unfold trigger_step. rewrite H. reflexivity. Qed.

(** A frame that ends inside a fade ran the progress block, below [p = 1],
    and swapped nothing. *)
Lemma tick_still_fading (now1 now2 : Q) (w : world) :
  isFading (tick cfg now1 now2 w) = true ->
  let w1 := trigger_step cfg now1 w in
  isFading w1 = true /\
  (fade_p cfg now2 (fadeStart w1) >=? #1) = false /\
  activeIdx (tick cfg now1 now2 w) = activeIdx w1 /\
  fadeStart (tick cfg now1 now2 w) = fadeStart w1.
Proof.
  intros H w1. unfold tick in *. fold w1 in H |- *.
  rewrite isFading_requestFrame, progress_step_eq in H.
  rewrite progress_step_eq.
  destruct (isFading w1) eqn:E; [|congruence].
  cbv zeta in *.
  destruct (fade_p cfg now2 (fadeStart w1) >=? #1) eqn:Ep.
  - discriminate H.
  - repeat split; destruct (activeIdx w); reflexivity.
Qed.

(** Media events and metadata handlers leave the refs of the fade alone. *)
Lemma quiet_step_same_refs (a b : video) (x : world) :
  same_refs x (with_videos a b x) /\
  same_refs x (on_video A (applyRate cfg) x) /\
  same_refs x (on_video B (applyRate cfg) x).
Proof. repeat split. Qed.

Lemma activeIdx_trigger_step (now : Q) (w : world) :
  activeIdx (trigger_step cfg now w) = activeIdx w.
Proof.
  unfold trigger_step.
  destruct (negb (isFading w) &&
            isFinite (duration (video_of (activeIdx w) w)) &&
            (duration (video_of (activeIdx w) w) >? #0)); [|reflexivity].
  destruct (currentTime (video_of (activeIdx w) w) >=?
            triggerAt cfg (duration (video_of (activeIdx w) w)));
    [|reflexivity].
  generalize (flip (activeIdx w)). intros i. destruct i; reflexivity.
Qed.

End FadeFrame.

(** ** The crossfade: opacities during a fade *)

Section FadeOpacity.

Import JS Hero.

(** C1. A frame that runs while a fade is in progress (one that was in
    progress when the frame began, or that the frame's own trigger block
    began) leaves [1 - eased] in the active layer's opacity and [eased] in
    the other layer's, where [eased = p^2 * (3 - 2p)] and
    [p = clamp((now - fadeStartTime) / (fadeDurationSeconds * 1000), 0, 1)];
    [now] is the clock reading of the progress block and [fadeStartTime] the
    start recorded for the fade. *)
Theorem C1_fade_opacities (cfg : config) (now1 now2 : Q) (w : world) :
  (0 < fadeSeconds cfg)%Q ->
  isFading (trigger_step cfg now1 w) = true ->
  let fadeStartTime := fadeStart (trigger_step cfg now1 w) in
  let eased := Spec.eased (Spec.p (fadeSeconds cfg) now2 fadeStartTime) in
  let w' := tick cfg now1 now2 w in
  eqv (opacity_of (activeIdx w) w') #(1 - eased) /\
  eqv (opacity_of (flip (activeIdx w)) w') #eased.
Proof.
  intros Hf H. apply tick_opacities_spec; assumption.
Qed.

(** Half-way through a fade with the source's settings: 700 ms after a
    start at 1000 ms. *)
Lemma C1_fade_opacities_witness :
  ((0 < fadeSeconds hero_config)%Q /\
   isFading (trigger_step hero_config 0 (Examples.w_fade 1000)) = true) /\
  eqv (opacity_of A (tick hero_config 0 1700 (Examples.w_fade 1000)))
      #(1 - Spec.eased (Spec.p 1.4 1700 1000)) /\
  eqv (opacity_of B (tick hero_config 0 1700 (Examples.w_fade 1000)))
      #(Spec.eased (Spec.p 1.4 1700 1000)).
Proof.
  split; [split; reflexivity|].
  destruct (C1_fade_opacities hero_config 0 1700 (Examples.w_fade 1000))
    as [Ha Ho]; [reflexivity | reflexivity |].
  split.
  - exact Ha.
  - exact Ho.
Defined.

(** C2. In a frame that runs while a fade is in progress, the two opacity
    values written are finite numbers of [0, 1] whose sum is 1 (in the exact
    arithmetic of the model). *)
Theorem C2_complementary_opacity (cfg : config) (now1 now2 : Q) (w : world) :
  (0 < fadeSeconds cfg)%Q ->
  isFading (trigger_step cfg now1 w) = true ->
  let w' := tick cfg now1 now2 w in
  exists activeOpacity otherOpacity : Q,
    opacity_of (activeIdx w) w' = #activeOpacity /\
    opacity_of (flip (activeIdx w)) w' = #otherOpacity /\
    (activeOpacity + otherOpacity == 1)%Q /\
    (0 <= activeOpacity <= 1)%Q /\ (0 <= otherOpacity <= 1)%Q.
Proof.
  intros Hf H w'.
  destruct (tick_opacities cfg now1 now2 w H) as [Ha Ho]. fold w' in Ha, Ho.
  assert (Hnz : ~ (fadeSeconds cfg == 0)%Q) by lra.
  destruct (fade_p_spec cfg now2 (fadeStart (trigger_step cfg now1 w)) Hnz)
    as (c & Ec & _ & Hc).
  rewrite Ec, ease_Fin in Ha, Ho.
  pose proof (ease_spec c c (Qeq_refl c)) as He.
  pose proof (eased_bounds c Hc) as Hb.
  exists (1 + - (c * c * (3 + - (2 * c))))%Q, (c * c * (3 + - (2 * c)))%Q.
  split; [exact Ha|]. split; [exact Ho|].
  repeat split; lra.
Qed.

(** A quarter of the way through a fade with the source's settings. *)
Lemma C2_complementary_opacity_witness :
  ((0 < fadeSeconds hero_config)%Q /\
   isFading (trigger_step hero_config 0 (Examples.w_fade 1000)) = true) /\
  exists activeOpacity otherOpacity : Q,
    opacity_of A (tick hero_config 0 1350 (Examples.w_fade 1000))
      = #activeOpacity /\
    opacity_of B (tick hero_config 0 1350 (Examples.w_fade 1000))
      = #otherOpacity /\
    (activeOpacity + otherOpacity == 1)%Q /\
    (0 <= activeOpacity <= 1)%Q /\ (0 <= otherOpacity <= 1)%Q.
Proof.
  split; [split; reflexivity|].
  apply (C2_complementary_opacity hero_config 0 1350 (Examples.w_fade 1000));
    reflexivity.
Defined.

(** C6. Two consecutive frames of one fade ([w1] is what the first leaves,
    still fading; [w1'] is what the second finds, with the refs untouched in
    between) whose clock readings do not decrease: the opacity the second
    writes to the incoming layer is at least the one the first wrote. *)
Theorem C6_monotonic_fade (cfg : config) (now1 now2 now1' now2' : Q)
  (w w1' : world) :
  (0 < fadeSeconds cfg)%Q ->
  let w1 := tick cfg now1 now2 w in
  let incoming := flip (activeIdx w) in
  isFading w1 = true ->
  same_refs w1 w1' ->
  (now2 <= now2')%Q ->
  exists e1 e2 : Q,
    opacity_of incoming w1 = #e1 /\
    opacity_of incoming (tick cfg now1' now2' w1') = #e2 /\
    (e1 <= e2)%Q.
Proof.
  intros Hf w1 incoming Hfad (Hidx & Hfad' & Hstart) Hnow.
  assert (Hnz : ~ (fadeSeconds cfg == 0)%Q) by lra.
  destruct (tick_still_fading cfg now1 now2 w Hfad) as (Ht & _ & Hi & Hs).
  fold w1 in Hi, Hs.
  set (start := fadeStart (trigger_step cfg now1 w)) in *.
  destruct (tick_opacities cfg now1 now2 w Ht) as [_ Ho1].
  fold w1 incoming start in Ho1.
  assert (Hfad1' : isFading w1' = true) by congruence.
  assert (Ht' : isFading (trigger_step cfg now1' w1') = true)
    by (rewrite trigger_step_fading; assumption).
  destruct (tick_opacities cfg now1' now2' w1' Ht') as [_ Ho2].
  rewrite (trigger_step_fading cfg now1' w1' Hfad1') in Ho2.
  rewrite Hstart, Hs, Hidx, Hi, activeIdx_trigger_step in Ho2.
  fold incoming start in Ho2.
  destruct (fade_p_spec cfg now2 start Hnz) as (c1 & E1 & Hc1 & B1).
  destruct (fade_p_spec cfg now2' start Hnz) as (c2 & E2 & Hc2 & B2).
  rewrite E1, ease_Fin in Ho1. rewrite E2, ease_Fin in Ho2.
  exists (c1 * c1 * (3 + - (2 * c1)))%Q, (c2 * c2 * (3 + - (2 * c2)))%Q.
  split; [exact Ho1|]. split; [exact Ho2|].
  pose proof (spec_p_mono cfg now2 now2' start Hf Hnow) as Hp.
  rewrite <- Hc1, <- Hc2 in Hp.
  pose proof (eased_mono c1 c2 (proj1 B1) Hp (proj2 B2)) as Hm.
  rewrite <- (ease_spec c1 c1 (Qeq_refl c1)) in Hm.
  rewrite <- (ease_spec c2 c2 (Qeq_refl c2)) in Hm.
  exact Hm.
Qed.

(** Two frames of one fade, 350 ms and 700 ms after its start, the media
    having moved on in between. *)
Lemma C6_monotonic_fade_witness :
  let w1 := tick hero_config 0 1350 (Examples.w_fade 1000) in
  let w1' := with_videos (Examples.playing 9.35) (Examples.playing 0.75) w1 in
  ((0 < fadeSeconds hero_config)%Q /\ isFading w1 = true /\
   same_refs w1 w1' /\ (1350 <= 1700)%Q) /\
  exists e1 e2 : Q,
    opacity_of B w1 = #e1 /\
    opacity_of B (tick hero_config 0 1700 w1') = #e2 /\
    (e1 <= e2)%Q.
Proof.
  intros w1 w1'.
  assert (Hr : same_refs w1 w1')
    by (split; [reflexivity | split; reflexivity]).
  assert (Hn : (1350 <= 1700)%Q) by (vm_compute; discriminate).
  split; [split; [reflexivity | split; [reflexivity | split; assumption]]|].
  exact (C6_monotonic_fade hero_config 0 1350 0 1700 (Examples.w_fade 1000)
           w1' eq_refl eq_refl Hr Hn).
Defined.

End FadeOpacity.

(** ** The crossfade: trigger and role swap *)

Section FadeTrigger.

Import JS Hero.

Variable cfg : config.

(** [Math.max(0, dur - fadeSeconds)] of a finite duration is the
    specification's trigger point, and is not negative. *)
Lemma triggerAt_Fin (d : Q) :
  exists r : Q,
    triggerAt cfg #d = #r /\
    (r == Spec.triggerPoint d (fadeSeconds cfg))%Q /\ (0 <= r)%Q.
Proof.
  unfold triggerAt, Spec.triggerPoint.
  change (#d - #(fadeSeconds cfg)) with #(d - fadeSeconds cfg).
  unfold Math_max.
  destruct (leb #0 #(d - fadeSeconds cfg)) eqn:E.
  - apply leb_Fin in E. exists (d - fadeSeconds cfg)%Q.
    split; [reflexivity|]. split; [|exact E].
    rewrite Q.max_r; [reflexivity | exact E].
  - apply leb_Fin_false in E. exists 0%Q.
    split; [reflexivity|]. split; [|lra].
    rewrite Q.max_l; [reflexivity | lra].
Qed.

Lemma gtb_Fin_0 (d : Q) : (#d >? #0) = true <-> (0 < d)%Q.
Proof.
  unfold gtb. rewrite negb_true_iff. apply leb_Fin_false.
Qed.

(** The guards of the trigger block, for a finite positive duration and a
    finite position. *)
Lemma triggers_iff (w : world) (d c : Q) :
  isFading w = false ->
  duration (video_of (activeIdx w) w) = #d ->
  currentTime (video_of (activeIdx w) w) = #c ->
  (0 < d)%Q ->
  triggers cfg w = true <->
  (Spec.triggerPoint d (fadeSeconds cfg) <= c)%Q.
Proof.
  intros Hf Hd Hc Hpos. unfold triggers. rewrite Hf, Hd, Hc.
  destruct (triggerAt_Fin d) as (r & Er & Hr & _). rewrite Er.
  replace (#d >? #0) with true by (symmetry; apply gtb_Fin_0; exact Hpos).
  cbn [negb isFinite andb]. unfold geb.
  rewrite <- Hr. apply leb_Fin.
Qed.

(** What the trigger block does when its guards hold. *)
Lemma trigger_step_fires (now : Q) (w : world) :
  triggers cfg w = true ->
  trigger_step cfg now w =
  on_video (flip (activeIdx w)) startOther
    (set_fadeStart now (set_isFading true w)).
Proof.
  unfold triggers, trigger_step. cbv zeta. intros H.
  apply andb_true_iff in H. destruct H as [H1 H2].
  rewrite H1, H2. reflexivity.
Qed.

Lemma trigger_step_idle (now : Q) (w : world) :
  triggers cfg w = false -> trigger_step cfg now w = w.
Proof.
  unfold triggers, trigger_step. cbv zeta. intros H.
  destruct (negb (isFading w) &&
            isFinite (duration (video_of (activeIdx w) w)) &&
            (duration (video_of (activeIdx w) w) >? #0)); [|reflexivity].
  simpl in H. rewrite H. reflexivity.
Qed.

Lemma fired_refs (now : Q) (w : world) :
  triggers cfg w = true ->
  isFading (trigger_step cfg now w) = true /\
  fadeStart (trigger_step cfg now w) = now /\
  video_of (flip (activeIdx w)) (trigger_step cfg now w) =
    startOther (video_of (flip (activeIdx w)) w) /\
  video_of (activeIdx w) (trigger_step cfg now w) =
    video_of (activeIdx w) w.
Proof.
  intros H. rewrite (trigger_step_fires now w H).
  destruct (activeIdx w); repeat split; reflexivity.
Qed.

(** What a frame keeps of the state the trigger block left. *)
Lemma tick_keeps (now1 now2 : Q) (w : world) :
  let w1 := trigger_step cfg now1 w in
  let w' := tick cfg now1 now2 w in
  fadeStart w' = fadeStart w1 /\
  video_of (flip (activeIdx w)) w' = video_of (flip (activeIdx w)) w1 /\
  rafRef w' = Some (nextFrame w) /\
  In (nextFrame w) (frames w').
Proof.
  intros w1 w'. unfold w', tick. fold w1.
  assert (Hn : nextFrame w1 = nextFrame w).
  { unfold w1, trigger_step. cbv zeta.
    destruct (negb (isFading w) &&
              isFinite (duration (video_of (activeIdx w) w)) &&
              (duration (video_of (activeIdx w) w) >? #0)); [|reflexivity].
    destruct (currentTime (video_of (activeIdx w) w) >=?
              triggerAt cfg (duration (video_of (activeIdx w) w)));
      [|reflexivity].
    generalize (flip (activeIdx w)). intros i. destruct i; reflexivity. }
  rewrite progress_step_eq.
  destruct (isFading w1); cbv zeta.
  - destruct (fade_p cfg now2 (fadeStart w1) >=? #1);
      destruct (activeIdx w); simpl; rewrite <- Hn;
      repeat split; try reflexivity;
      apply in_or_app; right; left; reflexivity.
  - destruct (activeIdx w); simpl; rewrite <- Hn;
      repeat split; try reflexivity;
      apply in_or_app; right; left; reflexivity.
Qed.

End FadeTrigger.

Section FadeEvents.

Import JS Hero.

(** C5. For a finite duration the trigger point the frame computes is
    [max(0, duration - fadeDurationSeconds)], hence never negative; for a
    duration of 1.0 s and a fade of 1.4 s it is 0. *)
Theorem C5_trigger_point :
  (forall (cfg : config) (duration : Q),
     exists r : Q,
       triggerAt cfg #duration = #r /\
       (r == Spec.triggerPoint duration (fadeSeconds cfg))%Q /\
       (0 <= r)%Q) /\
  (forall rate : Q, triggerAt (mkConfig rate 1.4) #1.0 = #0).
Proof.
  split.
  - intros cfg duration. apply triggerAt_Fin.
  - intros rate. reflexivity.
Qed.

(** What a frame whose trigger block fires leaves behind. *)
Lemma fired_frame (cfg : config) (now1 now2 : Q) (w : world) :
  triggers cfg w = true ->
  let other := flip (activeIdx w) in
  let w1 := trigger_step cfg now1 w in
  let w' := tick cfg now1 now2 w in
  (isFading w1 = true /\ fadeStart w1 = now1 /\
   video_of other w1 = startOther (video_of other w)) /\
  (isFading w' = negb (fade_p cfg now2 now1 >=? #1) /\
   fadeStart w' = now1 /\
   currentTime (video_of other w') = #0 /\
   playCalls (video_of other w') = S (playCalls (video_of other w)) /\
   pendingPlay (video_of other w') = S (pendingPlay (video_of other w)) /\
   (blocked (video_of other w) = false ->
    paused (video_of other w') = false) /\
   rafRef w' = Some (nextFrame w) /\ In (nextFrame w) (frames w')).
Proof.
  intros Ht other w1 w'.
  destruct (fired_refs cfg now1 w Ht) as (H1 & H2 & H3 & _).
  fold w1 other in H1, H2, H3.
  destruct (tick_keeps cfg now1 now2 w) as (K1 & K2 & K3 & K4).
  fold w1 w' other in K1, K2, K3, K4.
  split; [repeat split; assumption|].
  split.
  { unfold w'. rewrite tick_isFading. fold w1. rewrite H1, H2. reflexivity. }
  rewrite K1, K2, H2, H3.
  repeat split; try assumption; try reflexivity.
  intros Hb. simpl. rewrite Hb. reflexivity.
Qed.

(** C3. In a frame that starts outside a fade, with a finite positive
    duration of the active slot and the playback position at or past
    [max(0, duration - fadeDurationSeconds)], the trigger block begins a
    fade: [isFading] is set, [fadeStart] is the clock reading, the other
    slot is reset to position 0 and [play()] is called on it (it leaves the
    paused state unless autoplay is blocked).  The frame does not wait for
    the promise: it reschedules itself and returns with the promise still
    pending, inside the fade unless its own progress block already found
    [p >= 1].  In particular, with a duration of 10 s, a fade of 1.4 s and
    rate 1, a fade begins at position 8.6 s. *)
Theorem C3_fade_begins :
  (forall (cfg : config) (now1 now2 : Q) (w : world) (duration position : Q),
     let active := video_of (activeIdx w) w in
     let other := flip (activeIdx w) in
     isFading w = false ->
     Hero.duration active = #duration -> (0 < duration)%Q ->
     currentTime active = #position ->
     (Spec.triggerPoint duration (fadeSeconds cfg) <= position)%Q ->
     let w1 := trigger_step cfg now1 w in
     let w' := tick cfg now1 now2 w in
     (isFading w1 = true /\ fadeStart w1 = now1 /\
      video_of other w1 = startOther (video_of other w)) /\
     (isFading w' = negb (fade_p cfg now2 now1 >=? #1) /\
      fadeStart w' = now1 /\
      currentTime (video_of other w') = #0 /\
      playCalls (video_of other w') = S (playCalls (video_of other w)) /\
      pendingPlay (video_of other w') = S (pendingPlay (video_of other w)) /\
      (blocked (video_of other w) = false ->
       paused (video_of other w') = false) /\
      rafRef w' = Some (nextFrame w) /\ In (nextFrame w) (frames w'))) /\
  (forall (now1 : Q) (w : world),
     isFading w = false ->
     Hero.duration (video_of (activeIdx w) w) = #10 ->
     currentTime (video_of (activeIdx w) w) = #8.6 ->
     isFading (trigger_step (mkConfig 1 1.4) now1 w) = true /\
     fadeStart (trigger_step (mkConfig 1 1.4) now1 w) = now1).
Proof.
  split.
  - intros cfg now1 now2 w duration position active other Hf Hd Hpos Hc Hge.
    apply fired_frame.
    apply (triggers_iff cfg w duration position); assumption.
  - intros now1 w Hf Hd Hc.
    assert (Ht : triggers (mkConfig 1 1.4) w = true).
    { apply (triggers_iff _ w 10 8.6); try assumption; try reflexivity.
      vm_compute. discriminate. }
    destruct (fired_refs _ now1 w Ht) as (H1 & H2 & _).
    split; assumption.
Qed.

(** The end-to-end scenario on a concrete world, the first clock reading
    being 5000 ms. *)
Lemma C3_fade_begins_witness :
  let w := Examples.w_play 8.6 in
  let cfg := Examples.scenario_config in
  (isFading w = false /\ Hero.duration (vA w) = #10 /\ (0 < 10)%Q /\
   currentTime (vA w) = #8.6 /\
   (Spec.triggerPoint 10 (fadeSeconds cfg) <= 8.6)%Q) /\
  isFading (trigger_step cfg 5000 w) = true /\
  fadeStart (trigger_step cfg 5000 w) = 5000%Q /\
  currentTime (vB (tick cfg 5000 5000 w)) = #0 /\
  paused (vB (tick cfg 5000 5000 w)) = false.
Proof.
  intros w cfg.
  assert (Hge : (Spec.triggerPoint 10 (fadeSeconds cfg) <= 8.6)%Q)
    by (vm_compute; discriminate).
  split; [repeat split; try reflexivity; exact Hge|].
  destruct (proj1 C3_fade_begins cfg 5000 5000 w 10 8.6
              eq_refl eq_refl eq_refl eq_refl Hge)
    as ((H1 & H2 & _) & (_ & _ & H3 & _ & _ & H4 & _)).
  exact (conj H1 (conj H2 (conj H3 (H4 eq_refl)))).
Defined.

(** Just before the trigger point nothing begins: at position 8.5 s the
    trigger block of the scenario leaves the world as it is. *)
Example scenario_no_fade_at_8_5 :
  trigger_step Examples.scenario_config 5000 (Examples.w_play 8.5)
  = Examples.w_play 8.5.
Proof. reflexivity. Qed.

(** The end of the scenario: the fade that began at 5000 ms is complete in
    the frame at 6400 ms; slot B is the active one, slot A is paused at
    position 0. *)
Example scenario_fade_complete :
  let w1 := tick Examples.scenario_config 5000 5000 (Examples.w_play 8.6) in
  let w2 := tick Examples.scenario_config 6400 6400 w1 in
  (isFading w1 = true /\ activeIdx w1 = A) /\
  (isFading w2 = false /\ activeIdx w2 = B /\
   paused (vA w2) = true /\ currentTime (vA w2) = #0).
Proof. repeat split. Qed.

(** C4. A frame of a fade whose fraction [p] has reached 1 completes the
    fade: the slot that was active is paused and back at position 0, the
    other slot is the active one, [isFading] is cleared, and the layers are
    left at opacity 0 and 1. *)
Theorem C4_role_swap (cfg : config) (now1 now2 : Q) (w : world) :
  let w1 := trigger_step cfg now1 w in
  let w' := tick cfg now1 now2 w in
  let old := activeIdx w in
  (0 < fadeSeconds cfg)%Q ->
  isFading w1 = true ->
  (Spec.p (fadeSeconds cfg) now2 (fadeStart w1) == 1)%Q ->
  paused (video_of old w') = true /\
  currentTime (video_of old w') = #0 /\
  activeIdx w' = flip old /\
  isFading w' = false /\
  eqv (opacity_of old w') #0 /\ eqv (opacity_of (flip old) w') #1.
Proof.
  intros w1 w' old Hf H Hp.
  assert (Hnz : ~ (fadeSeconds cfg == 0)%Q) by lra.
  destruct (fade_p_spec cfg now2 (fadeStart w1) Hnz) as (c & Ec & Hc & _).
  assert (Hge : (fade_p cfg now2 (fadeStart w1) >=? #1) = true).
  { rewrite Ec. unfold geb. apply leb_Fin. lra. }
  destruct (tick_swaps cfg now1 now2 w H Hge) as (S1 & S2 & S3).
  fold w' old w1 in S1, S2, S3.
  destruct (tick_opacities_spec cfg now1 now2 w Hf H) as [Oa Oo].
  fold w' old w1 in Oa, Oo.
  rewrite S3. repeat split; try assumption.
  - destruct (opacity_of old w'); simpl in Oa |- *; try contradiction.
    rewrite Oa. unfold Spec.eased. rewrite Hp. ring.
  - destruct (opacity_of (flip old) w'); simpl in Oo |- *; try contradiction.
    rewrite Oo. unfold Spec.eased. rewrite Hp. ring.
Qed.

(** A frame 1400 ms after the start of a fade, with the source's
    settings. *)
Lemma C4_role_swap_witness :
  let w := Examples.w_fade 1000 in
  ((0 < fadeSeconds hero_config)%Q /\
   isFading (trigger_step hero_config 0 w) = true /\
   (Spec.p (fadeSeconds hero_config) 2400 1000 == 1)%Q) /\
  paused (vA (tick hero_config 0 2400 w)) = true /\
  currentTime (vA (tick hero_config 0 2400 w)) = #0 /\
  activeIdx (tick hero_config 0 2400 w) = B /\
  isFading (tick hero_config 0 2400 w) = false.
Proof.
  intros w.
  assert (Hp : (Spec.p (fadeSeconds hero_config) 2400 1000 == 1)%Q)
    by reflexivity.
  split; [repeat split; try reflexivity; exact Hp|].
  destruct (C4_role_swap hero_config 0 2400 w eq_refl eq_refl Hp)
    as (H1 & H2 & H3 & H4 & _).
  exact (conj H1 (conj H2 (conj H3 H4))).
Defined.

End FadeEvents.

(** ** The order of the two blocks of a frame *)

Section FrameOrder.

Import JS Hero.

Lemma spec_p_zero (fs now start : Q) :
  (0 < fs)%Q -> (now <= start)%Q -> (Spec.p fs now start == 0)%Q.
Proof.
  intros Hf H. unfold Spec.p, Spec.clamp.
  assert (Hi : (0 < / (fs * 1000))%Q) by (apply Qinv_lt_0_compat; lra).
  assert (Ht : ((now - start) / (fs * 1000) <= 0)%Q)
    by (unfold Qdiv; nra).
  apply Q.max_l. apply Qle_trans with (2 := Ht). apply Q.le_min_r.
Qed.

(** C8, as the code has it.  In a frame whose trigger block begins a fade
    the progress block runs after it, in the same frame, on the start time
    just recorded: the frame writes the opacities [1 - eased] and [eased]
    for [p = clamp((now2 - now1) / (fadeDurationSeconds * 1000), 0, 1)],
    where [now1] is the clock reading stored as [fadeStart] and [now2] the
    later reading of the progress block.  Progress 0 is therefore shown by
    the triggering frame itself when the clock did not move between the two
    readings, and the following frame of the fade reads the progress anew
    from its own clock reading and the same start time. *)
Theorem C8_trigger_then_progress (cfg : config) (now1 now2 : Q) (w : world) :
  (0 < fadeSeconds cfg)%Q ->
  triggers cfg w = true ->
  let w' := tick cfg now1 now2 w in
  let old := activeIdx w in
  let eased_at now := Spec.eased (Spec.p (fadeSeconds cfg) now now1) in
  fadeStart w' = now1 /\
  eqv (opacity_of old w') #(1 - eased_at now2) /\
  eqv (opacity_of (flip old) w') #(eased_at now2) /\
  ((now2 <= now1)%Q ->
   eqv (opacity_of old w') #1 /\ eqv (opacity_of (flip old) w') #0) /\
  (forall (next : world) (now1' now2' : Q),
     isFading w' = true -> same_refs w' next ->
     eqv (opacity_of (flip old) (tick cfg now1' now2' next))
         #(eased_at now2')).
Proof.
  intros Hf Ht w' old eased_at.
  destruct (fired_refs cfg now1 w Ht) as (H1 & H2 & _).
  destruct (tick_keeps cfg now1 now2 w) as (K1 & _).
  destruct (tick_opacities_spec cfg now1 now2 w Hf H1) as [Oa Oo].
  rewrite H2 in Oa, Oo, K1. fold w' old in Oa, Oo, K1.
  split; [exact K1|]. split; [exact Oa|]. split; [exact Oo|]. split.
  - intros Hle. pose proof (spec_p_zero _ _ _ Hf Hle) as Hz.
    split.
    + destruct (opacity_of old w'); simpl in Oa |- *; try contradiction.
      rewrite Oa. unfold Spec.eased. rewrite Hz. ring.
    + destruct (opacity_of (flip old) w'); simpl in Oo |- *;
        try contradiction.
      rewrite Oo. unfold Spec.eased. rewrite Hz. ring.
  - intros next now1' now2' Hfad (Ri & Rf & Rs).
    destruct (tick_still_fading cfg now1 now2 w Hfad) as (_ & _ & Hi & _).
    fold w' in Hi. rewrite activeIdx_trigger_step in Hi.
    assert (Hn : isFading next = true) by congruence.
    assert (Hn' : isFading (trigger_step cfg now1' next) = true)
      by (rewrite trigger_step_fading; assumption).
    destruct (tick_opacities_spec cfg now1' now2' next Hf Hn') as [_ On].
    rewrite (trigger_step_fading cfg now1' next Hn) in On.
    rewrite Rs, K1, Ri, Hi in On. exact On.
Qed.

(** A frame that finds slot A at 9 s of its 10 s, the clock reading 1000 ms
    at the trigger and 1001.4 ms at the progress block. *)
Lemma C8_trigger_then_progress_witness :
  let w := Examples.w_play 9 in
  let w' := tick hero_config 1000 1001.4 w in
  ((0 < fadeSeconds hero_config)%Q /\ triggers hero_config w = true) /\
  fadeStart w' = 1000%Q /\
  eqv (opacity_of A w')
      #(1 - Spec.eased (Spec.p (fadeSeconds hero_config) 1001.4 1000)) /\
  eqv (opacity_of B w')
      #(Spec.eased (Spec.p (fadeSeconds hero_config) 1001.4 1000)).
Proof.
  intros w w'.
  split; [split; reflexivity|].
  destruct (C8_trigger_then_progress hero_config 1000 1001.4 w eq_refl eq_refl)
    as (H1 & H2 & H3 & _).
  exact (conj H1 (conj H2 H3)).
Defined.

(** C8, as the claim has it, fails: the frame that triggers the fade
    already reads the progress.  With the two clock readings 1.4 ms apart
    it reads [p = 0.001] and writes the opacities 0.999997002 and
    0.000002998, and its outcome differs from the one for equal readings. *)
Lemma C8_progress_read_in_trigger_frame :
  let w := Examples.w_play 9 in
  let w' := tick hero_config 1000 1001.4 w in
  triggers hero_config w = true /\
  eqv (fade_p hero_config 1001.4 (fadeStart w')) #0.001 /\
  eqv (opacity_of A w') #0.999997002 /\
  eqv (opacity_of B w') #0.000002998 /\
  w' <> tick hero_config 1000 1000 w.
Proof.
  intros w w'.
  split; [reflexivity|]. split; [reflexivity|].
  split; [reflexivity|]. split; [reflexivity|].
  intros H. apply (f_equal opB) in H. vm_compute in H. discriminate H.
Qed.

End FrameOrder.

(** ** Reduced motion *)

Section ReducedMotion.

Import JS Hero.

Variable cfg : config.

Lemma reduced_inv_mount (a b : video) :
  reduced_inv (playCalls b) (mount cfg true (fresh a b)).
Proof. constructor; reflexivity. Qed.

Lemma reduced_inv_step (n : nat) (w w' : world) :
  reduced_inv n w -> step cfg w w' -> reduced_inv n w'.
Proof.
  intros I Hs. destruct Hs as [w a b Ha Hb | w id now1 now2 Hin | w Hm | w Hm].
  - destruct I, Ha, Hb. constructor; simpl; congruence.
  - rewrite (ri_frames _ _ I) in Hin. destruct Hin.
  - rewrite (ri_metaA _ _ I) in Hm. discriminate Hm.
  - rewrite (ri_metaB _ _ I) in Hm. discriminate Hm.
Qed.

Lemma reduced_inv_steps (n : nat) (w w' : world) :
  reduced_inv n w -> steps cfg w w' -> reduced_inv n w'.
Proof.
  intros I Hs. induction Hs as [w | w w1 w2 _ IH Hstep].
  - exact I.
  - apply (reduced_inv_step n w1 w2); [apply IH; exact I | exact Hstep].
Qed.

(** The reduced-motion session: when the effect runs with the flag on a
    freshly rendered component, then in every world the session can reach,
    whatever the media elements do and however much time passes, no fade is
    in progress and slot A is the active one, no frame callback is
    registered (nor a metadata listener), layer A is at opacity 1 and layer
    B at opacity 0, element A has [loop] set and element B has not, the
    controller has made no [play()] call on element B, and the only steps
    left are the media pipeline's. *)
Lemma reduced_session_invariant (a b : video) (w : world) :
  steps cfg (mount cfg true (fresh a b)) w ->
  isFading w = false /\ activeIdx w = A /\
  frames w = [] /\ rafRef w = None /\
  opA w = #1 /\ opB w = #0 /\
  loop (vA w) = true /\ loop (vB w) = false /\
  playCalls (vB w) = playCalls b /\
  (forall w', step cfg w w' -> exists a' b', w' = with_videos a' b' w).
Proof.
  intros Hs.
  pose proof (reduced_inv_steps _ _ _ (reduced_inv_mount a b) Hs) as I.
  destruct I as [I1 I2 I3 I4 I5 I6 I7 I8 I9 I10 I11].
  repeat (split; [assumption|]).
  intros w' Hstep.
  destruct Hstep as [w a' b' _ _ | w id now1 now2 Hin | w Hm | w Hm].
  - exists a', b'. reflexivity.
  - rewrite I3 in Hin. destruct Hin.
  - congruence.
  - congruence.
Qed.

(** *** The second element on the full path *)

(** What a frame can do to an element: nothing, [resetVideo] or
    [startOther]. *)
Lemma tick_video_cases (i : slot) (now1 now2 : Q) (w : world) :
  let v := video_of i w in
  let v' := video_of i (tick cfg now1 now2 w) in
  v' = v \/ v' = resetVideo v \/ v' = startOther v.
Proof.
  intros v v'. unfold v', v, tick, trigger_step. cbv zeta.
  destruct (negb (isFading w) &&
            isFinite (duration (video_of (activeIdx w) w)) &&
            (duration (video_of (activeIdx w) w) >? #0)).
  - destruct (currentTime (video_of (activeIdx w) w) >=?
              triggerAt cfg (duration (video_of (activeIdx w) w))).
    + rewrite progress_step_eq.
      replace (isFading (on_video (flip (activeIdx w)) startOther
                 (set_fadeStart now1 (set_isFading true w)))) with true
        by (destruct (activeIdx w); reflexivity).
      cbv zeta.
      match goal with |- context [if ?c then _ else _] => destruct c end;
        destruct (activeIdx w); destruct i; simpl; auto.
    + rewrite progress_step_eq. destruct (isFading w); cbv zeta.
      * match goal with |- context [if ?c then _ else _] => destruct c end;
          destruct (activeIdx w); destruct i; simpl; auto.
      * destruct i; simpl; auto.
  - rewrite progress_step_eq. destruct (isFading w); cbv zeta.
    + match goal with |- context [if ?c then _ else _] => destruct c end;
        destruct (activeIdx w); destruct i; simpl; auto.
    + destruct i; simpl; auto.
Qed.

Lemma waits_mount (a b : video) :
  waits (playCalls b) (mount cfg false (fresh a b)).
Proof. constructor; reflexivity. Qed.

Lemma waits_video (n : nat) (w : world) (v' : video) :
  waits n w ->
  v' = vB w \/ v' = resetVideo (vB w) \/ v' = startOther (vB w) ->
  canAutoplay v' = false /\ (n <= playCalls v')%nat /\
  (playCalls v' = n -> paused v' = true).
Proof.
  intros [W1 W2 W3] [E | [E | E]]; subst v'.
  - repeat split; assumption.
  - repeat split; try reflexivity. exact W2.
  - split; [reflexivity|]. simpl. split; [lia|]. intros E. lia.
Qed.

Lemma waits_step (n : nat) (w w' : world) :
  waits n w -> step cfg w w' -> waits n w'.
Proof.
  intros W Hs.
  destruct Hs as [w a b Ha Hb | w id now1 now2 Hin | w Hm | w Hm].
  - destruct W as [W1 W2 W3], Hb. constructor; simpl.
    + congruence.
    + lia.
    + intros E. destruct (paused b) eqn:Eb; [reflexivity|].
      assert (Hp : paused (vB w) = true) by (apply W3; congruence).
      specialize (ev_start0 Hp eq_refl). rewrite W1 in ev_start0.
      rewrite andb_false_r in ev_start0. discriminate ev_start0.
  - assert (W' : waits n (takeFrame id w)) by (destruct W; constructor; assumption).
    pose proof (tick_video_cases B now1 now2 (takeFrame id w)) as Hc.
    cbv zeta in Hc.
    destruct (waits_video n _ _ W' Hc) as (H1 & H2 & H3).
    constructor; assumption.
  - destruct W. constructor; assumption.
  - destruct W. constructor; assumption.
Qed.

Lemma waits_steps (n : nat) (w w' : world) :
  waits n w -> steps cfg w w' -> waits n w'.
Proof.
  intros W Hs. induction Hs as [w | w w1 w2 _ IH Hstep].
  - exact W.
  - apply (waits_step n w1 w2); [apply IH; exact W | exact Hstep].
Qed.

(** On the full path element B stays paused until the controller itself
    starts it. *)
Lemma full_session_second_slot_waits (a b : video) (w : world) :
  steps cfg (mount cfg false (fresh a b)) w ->
  playCalls (vB w) = playCalls b -> paused (vB w) = true.
Proof.
  intros Hs.
  apply (wt_paused (playCalls b)).
  apply (waits_steps _ _ _ (waits_mount a b) Hs).
Qed.

End ReducedMotion.

Section ReducedMotionClaim.

Import JS Hero.

(** C7, the part the code misses.  With the reduced-motion flag the effect
    returns without pausing element B, whose markup carries [autoPlay]: the
    media pipeline may then start it.  From the world the effect leaves, one
    step of the environment reaches a world where element B is playing,
    hidden at opacity 0, without any [play()] call of the controller. *)
Theorem C7_second_slot_autoplays :
  let w0 := mount hero_config true (fresh Examples.unloaded Examples.unloaded) in
  let b' := mkVideo #0.2 #10 false false true true #1 true true false 0 0 in
  let w := with_videos (vA w0) b' w0 in
  paused (vB w0) = true /\ canAutoplay (vB w0) = true /\
  steps hero_config w0 w /\
  paused (vB w) = false /\ playCalls (vB w) = 0%nat /\ opB w = #0.
Proof.
  intros w0 b' w.
  split; [reflexivity|]. split; [reflexivity|].
  split; [|repeat split].
  apply steps_next with (w1 := w0); [apply steps_refl|].
  apply (step_media hero_config w0 (vA w0) b').
  - constructor; try reflexivity. intros H _. discriminate H.
  - constructor; reflexivity.
Qed.

End ReducedMotionClaim.

(** ** The parallax progress *)

Section ParallaxProgress.

Import JS Parallax.

(** [Math.max(-1, Math.min(1, x))] of a finite [x] is its clamp to
    [-1, 1]. *)
Lemma clamp11_Fin (x : Q) :
  exists c : Q,
    Math_max (neg #1) (Math_min #1 #x) = #c /\
    (c == Spec.clamp x (-1) 1)%Q /\ (-1 <= c <= 1)%Q.
Proof.
  unfold Spec.clamp. change (neg #1) with #(- 1).
  unfold Math_min.
  destruct (leb #1 #x) eqn:E1.
  - apply leb_Fin in E1. exists 1%Q. split; [reflexivity|].
    split; [|lra].
    rewrite (Q.min_l 1 x) by assumption. rewrite Q.max_r; lra.
  - apply leb_Fin_false in E1. unfold Math_max.
    destruct (leb #(- 1) #x) eqn:E2.
    + apply leb_Fin in E2. exists x. split; [reflexivity|].
      split; [|lra].
      rewrite (Q.min_r 1 x) by lra. rewrite Q.max_r; lra.
    + apply leb_Fin_false in E2. exists (- 1)%Q. split; [reflexivity|].
      split; [|lra].
      rewrite (Q.min_r 1 x) by lra. rewrite Q.max_l; lra.
Qed.

(** The raw progress both calculators compute, for a non-zero viewport
    height. *)
Lemma rawProgress_Fin (innerHeight : Q) (r : rect) :
  ~ (innerHeight == 0)%Q ->
  (#innerHeight / #2 - (#(top r) + #(height r) / #2)) / #innerHeight =
  #((innerHeight / 2 - (top r + height r / 2)) / innerHeight).
Proof.
  intros Hh.
  assert (H2 : ~ (2 == 0)%Q) by lra.
  rewrite !(div_Fin _ 2 H2).
  change (#(innerHeight / 2) - (#(top r) + #(height r / 2)))
    with #(innerHeight / 2 - (top r + height r / 2)).
  apply div_Fin. exact Hh.
Qed.

(** C9, as the code has it.  For every element geometry and every non-zero
    viewport height both calculators compute
    [clamp((viewportCenter - elementCenter) / viewportHeight, -1, 1)], a
    finite number of [-1, 1]. *)
Theorem C9_parallax_progress (translateYRange : Q) (enableZoom : bool)
  (innerHeight : Q) (r : rect) :
  ~ (innerHeight == 0)%Q ->
  let card := progress (cardParallax translateYRange enableZoom innerHeight r) in
  let section := fst (sectionParallax translateYRange innerHeight r) in
  (eqv card #(Spec.progress innerHeight r) /\ within (-1) 1 card) /\
  (eqv section #(Spec.progress innerHeight r) /\ within (-1) 1 section).
Proof.
  intros Hh card section.
  assert (E : card = section) by reflexivity.
  rewrite <- E. clear E section.
  unfold card, cardParallax. cbv zeta. cbn [progress].
  rewrite (rawProgress_Fin innerHeight r Hh).
  destruct (clamp11_Fin ((innerHeight / 2 - (top r + height r / 2))
                         / innerHeight)) as (c & Ec & Hc & Hb).
  rewrite Ec. unfold Spec.progress. cbv zeta. simpl.
  repeat split; try exact Hc; lra.
Qed.

(** A card 300 px high, 100 px below the top of an 800 px viewport. *)
Lemma C9_parallax_progress_witness :
  let r := mkRect 100 300 in
  ~ (800 == 0)%Q /\
  eqv (progress (cardParallax 14 true 800 r)) #(Spec.progress 800 r) /\
  within (-1) 1 (progress (cardParallax 14 true 800 r)) /\
  within (-1) 1 (fst (sectionParallax 18 800 r)).
Proof.
  intros r.
  assert (Hh : ~ (800 == 0)%Q) by (intros H; discriminate H).
  split; [exact Hh|].
  destruct (C9_parallax_progress 14 true 800 r Hh) as ((H1 & H2) & _).
  destruct (C9_parallax_progress 18 true 800 r Hh) as (_ & (_ & H4)).
  exact (conj H1 (conj H2 H4)).
Defined.

(** C9, as the claim has it, fails: in a viewport of height 0 an element
    whose centre is at the viewport's top edge gives [0 / 0], and the clamp
    of [NaN] is [NaN], which is not a number of [-1, 1]. *)
Lemma C9_zero_viewport_NaN :
  let r := mkRect (-150) 300 in
  progress (cardParallax 14 true 0 r) = NaN /\
  fst (sectionParallax 18 0 r) = NaN /\
  ~ within (-1) 1 (progress (cardParallax 14 true 0 r)) /\
  ~ within (-1) 1 (fst (sectionParallax 18 0 r)).
Proof.
  intros r.
  split; [reflexivity|]. split; [reflexivity|].
  split; intros H; exact H.
Qed.

End ParallaxProgress.

(** ** Lead submission *)

Section LeadSubmission.

Import Kommo.

(** C10. For every payload, and whatever happened before the call,
    [sendToKommo] logs the payload, waits for its 1500 ms timer and then
    fulfils with [true]; it neither fulfils with [false] nor rejects, and
    its [catch] branch is never entered (nothing is logged as an error). *)
Theorem C10_sendToKommo_succeeds (data : FormData) (before : list event) :
  sendToKommo data before =
    (before ++ [ConsoleLog "Sending data to Kommo CRM integration..." data;
                Timeout 1500],
     Fulfilled true) /\
  snd (sendToKommo data before) <> Fulfilled false /\
  (forall err, snd (sendToKommo data before) <> Rejected err).
Proof.
  assert (E : sendToKommo data before =
    (before ++ [ConsoleLog "Sending data to Kommo CRM integration..." data;
                Timeout 1500],
     Fulfilled true)).
  { unfold sendToKommo, bind, sleep, emit, try_catch, ret.
    rewrite <- app_assoc. reflexivity. }
  split; [exact E|]. rewrite E. simpl.
  split; [|intros err]; discriminate.
Qed.

End LeadSubmission.

(** ** The full path of the effect: the frame loop *)

Section FullSession.

Import JS Hero HeroInv.

Variable cfg : config.

(** A frame's guards, decided one after the other on an explicit world. *)
Ltac frame_cases :=
  unfold tick, trigger_step, progress_step, triggerAt; cbv zeta;
  repeat match goal with
         | |- context [if ?c then _ else _] => destruct c eqn:?
         end.

(** The bookkeeping of a frame: it registers one callback, stores its id,
    and leaves the listeners alone. *)
Lemma tick_frames (now1 now2 : Q) (w : world) :
  let w' := tick cfg now1 now2 w in
  frames w' = frames w ++ [nextFrame w] /\
  nextFrame w' = S (nextFrame w) /\
  rafRef w' = Some (nextFrame w) /\
  metaA w' = metaA w /\ metaB w' = metaB w.
Proof.
  destruct w as [a b oa ob idx f fs r fr nf ma mb].
  destruct idx; simpl; frame_cases; simpl; repeat split; reflexivity.
Qed.

Lemma one_frame_mount (a b : video) :
  one_frame (mount cfg false (fresh a b)).
Proof.
  split; [|split; reflexivity].
  exists 1%nat. repeat split. apply le_n.
Qed.

Lemma one_frame_step (w w' : world) :
  one_frame w -> step cfg w w' -> one_frame w'.
Proof.
  intros [(i & Hi & Hf & Hr & Hn) [Ha Hb]] Hs.
  destruct Hs as [w a b _ _ | w id now1 now2 Hin | w Hm | w Hm].
  - split; [exists i; repeat split; assumption | split; assumption].
  - rewrite Hf in Hin. destruct Hin as [E | []]. subst id.
    destruct (tick_frames now1 now2 (takeFrame i w)) as (F1 & F2 & F3 & F4 & F5).
    cbv zeta in *.
    assert (Ef : frames (takeFrame i w) = []).
    { simpl. rewrite Hf. simpl. rewrite Nat.eqb_refl. reflexivity. }
    assert (En : nextFrame (takeFrame i w) = S i) by exact Hn.
    rewrite Ef, En in *.
    split.
    + exists (S i). repeat split; try assumption. apply le_S, Hi.
    + split; [rewrite F4 | rewrite F5]; assumption.
  - split; [exists i; repeat split; assumption | split; assumption].
  - split; [exists i; repeat split; assumption | split; assumption].
Qed.

Lemma one_frame_steps (w w' : world) :
  one_frame w -> steps cfg w w' -> one_frame w'.
Proof.
  intros I Hs. induction Hs as [w | w w1 w2 _ IH Hstep].
  - exact I.
  - apply (one_frame_step w1 w2); [apply IH; exact I | exact Hstep].
Qed.

(** In every world the full path reaches exactly one [tick] callback is
    registered, under the id stored in [rafRef]: the loop never stops and
    never registers a second callback. *)
Theorem full_session_one_frame (a b : video) (w : world) :
  steps cfg (mount cfg false (fresh a b)) w ->
  exists id, (1 <= id)%nat /\ frames w = [id] /\ rafRef w = Some id.
Proof.
  intros Hs.
  destruct (one_frame_steps _ _ (one_frame_mount a b) Hs)
    as [(i & Hi & Hf & Hr & _) _].
  exists i. repeat split; assumption.
Qed.

Lemma filter_twice {X : Type} (f : X -> bool) (l : list X) :
  filter f (filter f l) = filter f l.
Proof.
  induction l as [|x l IH]; simpl; [reflexivity|].
  destruct (f x) eqn:E; simpl; [rewrite E, IH|]; auto.
Qed.

(** The cleanup run on any world of the full path leaves no frame callback
    and no metadata listener: afterwards only the media pipeline moves. *)
Theorem unmount_stops_loop (a b : video) (w : world) :
  steps cfg (mount cfg false (fresh a b)) w ->
  frames (unmount w) = [] /\
  metaA (unmount w) = false /\ metaB (unmount w) = false /\
  (forall w', step cfg (unmount w) w' ->
              exists a' b', w' = with_videos a' b' (unmount w)).
Proof.
  intros Hs.
  destruct (one_frame_steps _ _ (one_frame_mount a b) Hs)
    as [(i & Hi & Hf & Hr & _) _].
  assert (E : frames (unmount w) = []).
  { unfold unmount. rewrite Hr. destruct i as [|i]; [inversion Hi|].
    simpl. rewrite Hf. simpl. rewrite Nat.eqb_refl. reflexivity. }
  assert (Ea : metaA (unmount w) = false) by reflexivity.
  assert (Eb : metaB (unmount w) = false) by reflexivity.
  repeat (split; [assumption|]).
  intros w' Hstep.
  destruct Hstep as [u a' b' _ _ | u id now1 now2 Hin | u Hm | u Hm].
  - exists a', b'. reflexivity.
  - rewrite E in Hin. destruct Hin.
  - congruence.
  - congruence.
Qed.

(** When the progress block finds [p >= 1], [p] is 1. *)
Lemma fade_p_ge1 (now start : Q) :
  (fade_p cfg now start >=? #1) = true -> fade_p cfg now start = #1.
Proof.
  unfold fade_p. generalize (Math_max #0 (fade_t cfg now start)).
  intros y H. destruct y as [| | |b]; simpl in *; try discriminate H;
    try reflexivity.
  destruct (Qle_bool 1 b) eqn:E; [reflexivity|].
  simpl in H. rewrite E in H. discriminate H.
Qed.

(** A frame outside a fade whose trigger block does not fire only
    reschedules itself. *)
Lemma tick_idle (now1 now2 : Q) (w : world) :
  isFading w = false -> triggers cfg w = false ->
  tick cfg now1 now2 w = requestFrame w.
Proof.
  intros Hf Ht. unfold tick.
  rewrite (trigger_step_idle cfg now1 w Ht).
  unfold progress_step. rewrite Hf. reflexivity.
Qed.

(** How a frame ends outside a fade: it was idle, or it completed a fade and
    swapped the roles. *)
Lemma tick_ends_settled (now1 now2 : Q) (w : world) :
  isFading (tick cfg now1 now2 w) = false ->
  (isFading w = false /\ tick cfg now1 now2 w = requestFrame w) \/
  (let w1 := trigger_step cfg now1 w in
   isFading w1 = true /\ fade_p cfg now2 (fadeStart w1) = #1).
Proof.
  intros H. rewrite tick_isFading in H. cbv zeta in H.
  destruct (isFading (trigger_step cfg now1 w)) eqn:E1.
  - right. cbv zeta. split; [exact E1|]. apply fade_p_ge1.
    simpl in H. apply negb_false_iff in H. exact H.
  - left. destruct (triggers cfg w) eqn:Et.
    + destruct (fired_refs cfg now1 w Et) as (F & _). congruence.
    + rewrite (trigger_step_idle cfg now1 w Et) in E1.
      split; [exact E1 | apply tick_idle; assumption].
Qed.

Lemma flip_flip (i : slot) : flip (flip i) = i.
Proof. destruct i; reflexivity. Qed.

Lemma settled_layers_step (w w' : world) :
  settled_layers w -> step cfg w w' -> settled_layers w'.
Proof.
  intros I Hs.
  destruct Hs as [w a b _ _ | w id now1 now2 Hin | w Hm | w Hm].
  - exact I.
  - assert (I0 : settled_layers (takeFrame id w)) by exact I.
    set (w0 := takeFrame id w) in *. clearbody w0. clear I Hin.
    intros Hf.
    destruct (tick_ends_settled now1 now2 w0 Hf) as [[Hf0 E] | [H1 Hp]].
    + rewrite E. destruct (I0 Hf0) as [Ia Io].
      split; [exact Ia | exact Io].
    + assert (Hge : (fade_p cfg now2 (fadeStart (trigger_step cfg now1 w0))
                     >=? #1) = true) by (rewrite Hp; reflexivity).
      destruct (tick_swaps cfg now1 now2 w0 H1 Hge) as (S1 & _).
      destruct (tick_opacities cfg now1 now2 w0 H1) as [Oa Oo].
      cbv zeta in Oa, Oo. rewrite Hp in Oa, Oo.
      rewrite S1, flip_flip, Oa, Oo. split; reflexivity.
  - exact I.
  - exact I.
Qed.

Lemma settled_layers_steps (w w' : world) :
  settled_layers w -> steps cfg w w' -> settled_layers w'.
Proof.
  intros I Hs. induction Hs as [w | w w1 w2 _ IH Hstep].
  - exact I.
  - apply (settled_layers_step w1 w2); [apply IH; exact I | exact Hstep].
Qed.

(** In every world the full path reaches, whenever no fade is in progress
    the active layer's opacity is 1 and the other layer's is 0. *)
Theorem full_session_layers (a b : video) (w : world) :
  steps cfg (mount cfg false (fresh a b)) w ->
  isFading w = false ->
  eqv (opacity_of (activeIdx w) w) #1 /\
  eqv (opacity_of (flip (activeIdx w)) w) #0.
Proof.
  intros Hs. apply (settled_layers_steps (mount cfg false (fresh a b)) w).
  - intros _. split; reflexivity.
  - exact Hs.
Qed.

Lemma video_requestFrame (i : slot) (w : world) :
  video_of i (requestFrame w) = video_of i w.
Proof. destruct i; reflexivity. Qed.

Lemma idle_other_step (w w' : world) :
  idle_other w -> step cfg w w' -> idle_other w'.
Proof.
  intros (Ca & Cb & Ip) Hs.
  destruct Hs as [w a b Ha Hb | w id now1 now2 Hin | w Hm | w Hm].
  - destruct Ha as [_ _ _ _ Aa As _ _], Hb as [_ _ _ _ Ba Bs _ _].
    split; [simpl; congruence|]. split; [simpl; congruence|].
    intros Hf. specialize (Ip Hf).
    change (paused (video_of (flip (activeIdx w)) (with_videos a b w)) = true).
    destruct (activeIdx w) eqn:Ei; simpl in *.
    + destruct (paused b) eqn:Eb; [reflexivity|].
      specialize (Bs Ip eq_refl). rewrite Cb, andb_false_r in Bs.
      discriminate Bs.
    + destruct (paused a) eqn:Ea; [reflexivity|].
      specialize (As Ip eq_refl). rewrite Ca, andb_false_r in As.
      discriminate As.
  - set (w0 := takeFrame id w).
    assert (Ca0 : canAutoplay (vA w0) = false) by exact Ca.
    assert (Cb0 : canAutoplay (vB w0) = false) by exact Cb.
    assert (Ip0 : isFading w0 = false ->
                  paused (video_of (flip (activeIdx w0)) w0) = true)
      by exact Ip.
    clearbody w0. clear Ca Cb Ip Hin.
    split; [|split].
    + pose proof (tick_video_cases cfg A now1 now2 w0) as Hc.
      cbv zeta in Hc.
      change (canAutoplay (video_of A (tick cfg now1 now2 w0)) = false).
      destruct Hc as [E | [E | E]]; rewrite E; try reflexivity. exact Ca0.
    + pose proof (tick_video_cases cfg B now1 now2 w0) as Hc.
      cbv zeta in Hc.
      change (canAutoplay (video_of B (tick cfg now1 now2 w0)) = false).
      destruct Hc as [E | [E | E]]; rewrite E; try reflexivity. exact Cb0.
    + intros Hf.
      destruct (tick_ends_settled now1 now2 w0 Hf) as [[Hf0 E] | [H1 Hp]].
      * rewrite E, video_requestFrame. apply Ip0, Hf0.
      * assert (Hge : (fade_p cfg now2 (fadeStart (trigger_step cfg now1 w0))
                       >=? #1) = true) by (rewrite Hp; reflexivity).
        destruct (tick_swaps cfg now1 now2 w0 H1 Hge) as (S1 & _ & S3).
        rewrite S1, flip_flip, S3. reflexivity.
  - split; [exact Ca|]. split; [exact Cb|].
    intros Hf. specialize (Ip Hf).
    change (paused (video_of (flip (activeIdx w))
                      (on_video A (applyRate cfg) w)) = true).
    destruct (activeIdx w); simpl in *; exact Ip.
  - split; [exact Ca|]. split; [exact Cb|].
    intros Hf. specialize (Ip Hf).
    change (paused (video_of (flip (activeIdx w))
                      (on_video B (applyRate cfg) w)) = true).
    destruct (activeIdx w); simpl in *; exact Ip.
Qed.

Lemma idle_other_steps (w w' : world) :
  idle_other w -> steps cfg w w' -> idle_other w'.
Proof.
  intros I Hs. induction Hs as [w | w w1 w2 _ IH Hstep].
  - exact I.
  - apply (idle_other_step w1 w2); [apply IH; exact I | exact Hstep].
Qed.

(** In every world the full path reaches, whenever no fade is in progress
    the inactive element is paused: it plays only during a fade, however
    the media pipeline behaves. *)
Theorem full_session_idle_other (a b : video) (w : world) :
  steps cfg (mount cfg false (fresh a b)) w ->
  isFading w = false ->
  paused (video_of (flip (activeIdx w)) w) = true.
Proof.
  intros Hs.
  assert (I : idle_other (mount cfg false (fresh a b))).
  { split; [reflexivity|]. split; [reflexivity|]. intros _. reflexivity. }
  destruct (idle_other_steps _ _ I Hs) as (_ & _ & Ip). exact Ip.
Qed.

Lemma clamp_ge1 (t : Q) : (1 <= Spec.clamp t 0 1)%Q <-> (1 <= t)%Q.
Proof.
  unfold Spec.clamp.
  destruct (Q.min_spec 1 t) as [[H1 E1] | [H1 E1]];
    destruct (Q.max_spec 0 (Qmin 1 t)) as [[H2 E2] | [H2 E2]];
    rewrite E2; rewrite E1 in *; split; intros H; lra.
Qed.

Lemma fade_p_ge1_iff (now start : Q) :
  (0 < fadeSeconds cfg)%Q ->
  (fade_p cfg now start >=? #1) = true <->
  (fadeSeconds cfg * 1000 <= now - start)%Q.
Proof.
  intros Hf.
  assert (Hnz : ~ (fadeSeconds cfg == 0)%Q) by lra.
  destruct (fade_p_spec cfg now start Hnz) as (c & Ec & Hc & _).
  rewrite Ec. unfold geb. rewrite leb_Fin, Hc. unfold Spec.p.
  rewrite clamp_ge1.
  set (d := (fadeSeconds cfg * 1000)%Q). set (x := (now - start)%Q).
  assert (Hd : (0 < d)%Q) by (unfold d; lra).
  assert (E : (x / d * d == x)%Q) by (field; lra).
  split; intros H; nra.
Qed.

(** A frame of a fade completes it (clears [isFading] and hands the active
    role to the other slot) exactly when its clock reading is at least
    [fadeSeconds * 1000] ms past the recorded start. *)
Theorem fade_completes_iff (now1 now2 : Q) (w : world) :
  (0 < fadeSeconds cfg)%Q ->
  let w1 := trigger_step cfg now1 w in
  let w' := tick cfg now1 now2 w in
  isFading w1 = true ->
  (isFading w' = false /\ activeIdx w' = flip (activeIdx w)) <->
  (fadeSeconds cfg * 1000 <= now2 - fadeStart w1)%Q.
Proof.
  intros Hf w1 w' H1. rewrite <- (fade_p_ge1_iff _ _ Hf). split.
  - intros [Hw _]. unfold w' in Hw. rewrite tick_isFading in Hw.
    fold w1 in Hw. rewrite H1 in Hw. simpl in Hw.
    apply negb_false_iff in Hw. exact Hw.
  - intros Hp. destruct (tick_swaps cfg now1 now2 w H1 Hp) as (S1 & S2 & _).
    split; assumption.
Qed.

(** While the active element's duration is unknown ([NaN]), unbounded or
    not positive, a frame outside a fade changes nothing: it only
    registers the next frame. *)
Theorem frame_idle_without_duration (now1 now2 : Q) (w : world) :
  isFading w = false ->
  (let dur := duration (video_of (activeIdx w) w) in
   dur = NaN \/ dur = PInf \/ dur = NInf \/
   exists d, dur = #d /\ (d <= 0)%Q) ->
  tick cfg now1 now2 w = requestFrame w.
Proof.
  intros Hf Hd. apply tick_idle; [exact Hf|].
  unfold triggers. cbv zeta in Hd.
  destruct Hd as [E | [E | [E | (d & E & Hle)]]]; rewrite E, Hf; simpl;
    try reflexivity.
  destruct (Qle_bool d 0) eqn:Eq; [reflexivity|].
  exfalso. apply Qle_bool_iff in Hle. congruence.
Qed.

(** The autoplay policy of the inactive element does not show in what a
    frame leaves on screen and in the refs. *)
Lemma tick_view_blocked (x : bool) (now1 now2 : Q) (w : world) :
  view (tick cfg now1 now2 (on_video (flip (activeIdx w)) (set_blocked x) w))
  = view (tick cfg now1 now2 w).
Proof.
  destruct w as [va vb oa ob idx f fs r fr nf ma mb].
  unfold view, tick, trigger_step, progress_step, triggerAt.
  generalize Math_min as mn. generalize Math_max as mx.
  generalize JS.geb as ge. generalize JS.gtb as gt. generalize JS.div as dv.
  generalize JS.mul as ml. generalize JS.sub as sb.
  generalize JS.isFinite as fin.
  intros fin sb ml dv gt ge mx mn.
  destruct idx; destruct f;
    repeat (cbn;
            match goal with
            | |- context [if ?c then _ else _] =>
                lazymatch c with
                | context [if _ then _ else _] => fail
                | _ => destruct c eqn:?
                end
            end);
    reflexivity.
Qed.

(** Refused autoplay.  When the trigger block fires while [play()] is
    refused on the other element, the frame leaves the same opacities and
    refs as if it were allowed, but the other element stays paused; and if
    the fade is then still in progress, the frame that completes it leaves
    both elements paused, whatever the media pipeline did in between. *)
Theorem refused_autoplay_fade (now1 now2 now1' now2' : Q) (w : world)
  (a b : video) :
  let other := flip (activeIdx w) in
  let w1 := tick cfg now1 now2 w in
  let w2 := tick cfg now1' now2' (with_videos a b w1) in
  triggers cfg w = true ->
  blocked (video_of other w) = true ->
  view w1 = view (tick cfg now1 now2 (on_video other (set_blocked false) w)) /\
  (paused (video_of other w1) = true /\
   playCalls (video_of other w1) = S (playCalls (video_of other w))) /\
  (isFading w1 = true ->
   media_evolves (vA w1) a -> media_evolves (vB w1) b ->
   isFading w2 = false ->
   paused (vA w2) = true /\ paused (vB w2) = true).
Proof.
  intros other w1 w2 Ht Hb.
  destruct (fired_frame cfg now1 now2 w Ht)
    as ((F1 & F2 & F3) & (_ & _ & _ & G4 & _)).
  destruct (tick_keeps cfg now1 now2 w) as (_ & K2 & _).
  fold other w1 in G4, K2. fold other in F3.
  assert (Ho : video_of other w1 = startOther (video_of other w))
    by (rewrite K2; exact F3).
  assert (Hp : paused (video_of other w1) = true)
    by (rewrite Ho; simpl; rewrite Hb; reflexivity).
  assert (Hc : canAutoplay (video_of other w1) = false)
    by (rewrite Ho; reflexivity).
  split; [|split; [split; assumption|]].
  - symmetry. apply tick_view_blocked.
  - intros Hfad Ma Mb Hdone.
    assert (Hfad' : isFading (with_videos a b w1) = true) by exact Hfad.
    destruct (tick_still_fading cfg now1 now2 w Hfad) as (_ & _ & Hi & _).
    fold w1 in Hi. rewrite activeIdx_trigger_step in Hi.
    assert (Hi' : activeIdx (with_videos a b w1) = activeIdx w) by exact Hi.
    assert (Hp' : paused (video_of other (with_videos a b w1)) = true).
    { unfold other in *. destruct Ma as [_ _ _ _ _ As _ _].
      destruct Mb as [_ _ _ _ _ Bs _ _].
      destruct (activeIdx w); simpl in *.
      - destruct (paused b) eqn:Eb; [reflexivity|].
        specialize (Bs Hp eq_refl). rewrite Hc, andb_false_r in Bs.
        discriminate Bs.
      - destruct (paused a) eqn:Ea; [reflexivity|].
        specialize (As Hp eq_refl). rewrite Hc, andb_false_r in As.
        discriminate As. }
    pose proof (trigger_step_fading cfg now1' _ Hfad') as Et.
    assert (H1 : isFading (trigger_step cfg now1' (with_videos a b w1)) = true)
      by (rewrite Et; exact Hfad').
    assert (Hge : (fade_p cfg now2'
                     (fadeStart (trigger_step cfg now1' (with_videos a b w1)))
                   >=? #1) = true).
    { unfold w2 in Hdone. rewrite tick_isFading in Hdone. cbv zeta in Hdone.
      rewrite H1 in Hdone. simpl in Hdone.
      apply negb_false_iff in Hdone. exact Hdone. }
    destruct (tick_swaps cfg now1' now2' _ H1 Hge) as (_ & _ & S3).
    destruct (tick_keeps cfg now1' now2' (with_videos a b w1)) as (_ & K2' & _).
    fold w2 in S3, K2'. rewrite Et, Hi' in *. fold other in K2'.
    assert (Pa : paused (video_of (activeIdx w) w2) = true)
      by (rewrite S3; reflexivity).
    assert (Po : paused (video_of other w2) = true)
      by (rewrite K2'; exact Hp').
    unfold other in Po. destruct (activeIdx w); simpl in *; split; assumption.
Qed.

(** A frame that starts inside a fade leaves the recorded start time as it
    is and makes no [play()] call: the fade is measured from one start and
    the incoming element is started once. *)
Theorem fading_frame_keeps_start (now1 now2 : Q) (w : world) :
  isFading w = true ->
  let w' := tick cfg now1 now2 w in
  fadeStart w' = fadeStart w /\
  playCalls (vA w') = playCalls (vA w) /\
  playCalls (vB w') = playCalls (vB w) /\
  video_of (flip (activeIdx w)) w' = video_of (flip (activeIdx w)) w.
Proof.
  intros Hf w'. unfold w'.
  destruct w as [va vb oa ob idx f fs r fr nf ma mb].
  simpl in Hf. subst f.
  unfold tick, trigger_step. cbn [isFading negb andb activeIdx].
  rewrite progress_step_eq. cbn [isFading]. cbv zeta.
  match goal with |- context [if ?c then _ else _] => destruct c end;
    destruct idx; repeat split; reflexivity.
Qed.

(** The cleanup is idempotent, on every world. *)
Theorem unmount_idempotent (w : world) :
  unmount (unmount w) = unmount w.
Proof.
  unfold unmount. destruct (rafRef w) as [[|i]|] eqn:E; simpl; rewrite ?E.
  - reflexivity.
  - simpl. unfold cancelFrame, dropFrame, set_listeners, set_frames. simpl.
    rewrite filter_twice. reflexivity.
  - reflexivity.
Qed.

End FullSession.

(** ** The parallax transforms *)

Section ParallaxTransforms.

Import JS Parallax.

(** The progress of both calculators, as a finite number, for a non-zero
    viewport height. *)
Lemma progress_Fin (translateYRange : Q) (enableZoom : bool)
  (innerHeight : Q) (r : rect) :
  ~ (innerHeight == 0)%Q ->
  exists c : Q,
    progress (cardParallax translateYRange enableZoom innerHeight r) = #c /\
    fst (sectionParallax translateYRange innerHeight r) = #c /\
    (c == Spec.progress innerHeight r)%Q /\ (-1 <= c <= 1)%Q.
Proof.
  intros Hh. unfold cardParallax, sectionParallax. cbv zeta.
  cbn [progress fst]. rewrite (rawProgress_Fin innerHeight r Hh).
  destruct (clamp11_Fin ((innerHeight / 2 - (top r + height r / 2))
                         / innerHeight)) as (c & Ec & Hc & Hb).
  exists c. rewrite Ec. repeat split; try assumption; lra.
Qed.

Lemma clamp11_spec (x : Q) :
  ((1 <= x -> Spec.clamp x (-1) 1 == 1) /\
   (x <= -1 -> Spec.clamp x (-1) 1 == -1) /\
   (-1 <= x <= 1 -> Spec.clamp x (-1) 1 == x))%Q.
Proof.
  unfold Spec.clamp.
  destruct (Q.min_spec 1 x) as [[H1 E1] | [H1 E1]];
    destruct (Q.max_spec (-1) (Qmin 1 x)) as [[H2 E2] | [H2 E2]];
    rewrite E2; rewrite E1 in *; repeat split; intros; lra.
Qed.

(** The sign convention of the progress, in a viewport of positive height:
    an element whose centre is a viewport height or more above the
    viewport's centre gives 1, one whose centre is that far below gives -1,
    and a centred element gives 0. *)
Theorem parallax_progress_saturates (translateYRange : Q) (enableZoom : bool)
  (innerHeight : Q) (r : rect) :
  (0 < innerHeight)%Q ->
  let centre := (top r + height r / 2)%Q in
  let card := progress (cardParallax translateYRange enableZoom innerHeight r) in
  let section := fst (sectionParallax translateYRange innerHeight r) in
  ((centre <= innerHeight / 2 - innerHeight)%Q ->
   eqv card #1 /\ eqv section #1) /\
  ((innerHeight / 2 + innerHeight <= centre)%Q ->
   eqv card #(-1) /\ eqv section #(-1)) /\
  ((centre == innerHeight / 2)%Q ->
   eqv card #0 /\ eqv section #0).
Proof.
  intros Hh centre card section.
  assert (Hnz : ~ (innerHeight == 0)%Q) by lra.
  destruct (progress_Fin translateYRange enableZoom innerHeight r Hnz)
    as (c & Ec & Es & Hc & _).
  fold card in Ec. fold section in Es. rewrite Ec, Es. simpl.
  unfold Spec.progress in Hc. cbv zeta in Hc. fold centre in Hc.
  set (x := ((innerHeight / 2 - centre) / innerHeight)%Q) in *.
  assert (E : (x * innerHeight == innerHeight / 2 - centre)%Q)
    by (unfold x; field; lra).
  destruct (clamp11_spec x) as (C1 & C2 & C3).
  split; [|split]; intros HH; rewrite Hc.
  - assert (Hx : (Spec.clamp x (-1) 1 == 1)%Q) by (apply C1; nra).
    split; exact Hx.
  - assert (Hx : (Spec.clamp x (-1) 1 == -1)%Q) by (apply C2; nra).
    split; exact Hx.
  - assert (Hx : (Spec.clamp x (-1) 1 == 0)%Q) by (rewrite C3; nra).
    split; exact Hx.
Qed.

Lemma parallax_progress_saturates_witness :
  let r := mkRect (-700) 200 in
  ((0 < 800)%Q /\ (top r + height r / 2 <= 800 / 2 - 800)%Q) /\
  eqv (progress (cardParallax 14 true 800 r)) #1 /\
  eqv (fst (sectionParallax 18 800 r)) #1.
Proof.
  intros r.
  assert (H0 : (0 < 800)%Q) by reflexivity.
  assert (H1 : (top r + height r / 2 <= 800 / 2 - 800)%Q)
    by (vm_compute; discriminate).
  split; [split; assumption|].
  destruct (parallax_progress_saturates 14 true 800 r H0) as (P & _).
  destruct (parallax_progress_saturates 18 true 800 r H0) as (P' & _).
  exact (conj (proj1 (P H1)) (proj2 (P' H1))).
Defined.

(** As the element moves up the viewport (its top decreases, its height
    unchanged), the progress does not decrease. *)
Theorem parallax_progress_monotone (translateYRange : Q) (enableZoom : bool)
  (innerHeight top1 top2 h : Q) :
  (0 < innerHeight)%Q -> (top2 <= top1)%Q ->
  exists c1 c2 : Q,
    progress (cardParallax translateYRange enableZoom innerHeight
                (mkRect top1 h)) = #c1 /\
    progress (cardParallax translateYRange enableZoom innerHeight
                (mkRect top2 h)) = #c2 /\
    fst (sectionParallax translateYRange innerHeight (mkRect top1 h)) = #c1 /\
    fst (sectionParallax translateYRange innerHeight (mkRect top2 h)) = #c2 /\
    (c1 <= c2)%Q.
Proof.
  intros Hh Ht.
  assert (Hnz : ~ (innerHeight == 0)%Q) by lra.
  destruct (progress_Fin translateYRange enableZoom innerHeight
              (mkRect top1 h) Hnz) as (c1 & E1 & S1 & H1 & _).
  destruct (progress_Fin translateYRange enableZoom innerHeight
              (mkRect top2 h) Hnz) as (c2 & E2 & S2 & H2 & _).
  exists c1, c2. repeat (split; [assumption|]).
  rewrite H1, H2. unfold Spec.progress, Spec.clamp. cbn [top height].
  apply Q.max_le_compat_l, Q.min_le_compat_l.
  unfold Qdiv. apply Qmult_le_compat_r; [lra|].
  apply Qlt_le_weak, Qinv_lt_0_compat. exact Hh.
Qed.

Lemma parallax_progress_monotone_witness :
  ((0 < 800)%Q /\ (100 <= 300)%Q) /\
  exists c1 c2 : Q,
    progress (cardParallax 14 true 800 (mkRect 300 300)) = #c1 /\
    progress (cardParallax 14 true 800 (mkRect 100 300)) = #c2 /\
    (c1 <= c2)%Q.
Proof.
  assert (H0 : (0 < 800)%Q) by reflexivity.
  assert (H1 : (100 <= 300)%Q) by (vm_compute; discriminate).
  split; [split; assumption|].
  destruct (parallax_progress_monotone 14 true 800 300 100 300 H0 H1)
    as (c1 & c2 & E1 & E2 & _ & _ & Hle).
  exists c1, c2. exact (conj E1 (conj E2 Hle)).
Defined.

(** What the calculators hand on, for a non-zero viewport height: the
    translation stays within the configured range in absolute value; the
    card's scale lies between 1.05 and 1.07 with zoom and is 1.05
    without. *)
Theorem parallax_outputs_bounded (translateYRange : Q) (enableZoom : bool)
  (innerHeight : Q) (r : rect) :
  ~ (innerHeight == 0)%Q ->
  let t := cardParallax translateYRange enableZoom innerHeight r in
  within (- Qabs translateYRange) (Qabs translateYRange) (translateY t) /\
  within (- Qabs translateYRange) (Qabs translateYRange)
         (snd (sectionParallax translateYRange innerHeight r)) /\
  within 1.05 1.07 (scale t) /\
  (enableZoom = false -> scale t = #1.05).
Proof.
  intros Hh t.
  destruct (progress_Fin translateYRange enableZoom innerHeight r Hh)
    as (c & Ec & Es & _ & Hb).
  assert (Et : translateY t = #(c * translateYRange)).
  { change (translateY t) with (progress t * #translateYRange).
    unfold t. rewrite Ec. reflexivity. }
  assert (Est : snd (sectionParallax translateYRange innerHeight r)
                = #(c * translateYRange)).
  { change (snd (sectionParallax translateYRange innerHeight r))
      with (fst (sectionParallax translateYRange innerHeight r)
            * #translateYRange).
    rewrite Es. reflexivity. }
  assert (Hr : (- Qabs translateYRange <= c * translateYRange
                <= Qabs translateYRange)%Q).
  { destruct (Qlt_le_dec translateYRange 0) as [Hn | Hp].
    - rewrite (Qabs_neg translateYRange) by lra. split; nra.
    - rewrite (Qabs_pos translateYRange) by lra. split; nra. }
  rewrite Et, Est. split; [exact Hr|]. split; [exact Hr|].
  split.
  - destruct enableZoom.
    + change (scale t)
        with (#1.05 + (#1 - Math_abs (progress t)) * #0.02).
      unfold t. rewrite Ec. simpl.
      assert (Ha : (0 <= Qabs c <= 1)%Q).
      { split; [apply Qabs_nonneg|]. apply Qabs_Qle_condition. lra. }
      split; lra.
    + change (scale t) with #1.05. simpl. split; lra.
  - intros E. unfold t. rewrite E. reflexivity.
Qed.

Lemma parallax_outputs_bounded_witness :
  let r := mkRect 100 300 in
  ~ (800 == 0)%Q /\
  within (- Qabs 14) (Qabs 14) (translateY (cardParallax 14 true 800 r)) /\
  within 1.05 1.07 (scale (cardParallax 14 true 800 r)).
Proof.
  intros r.
  assert (Hh : ~ (800 == 0)%Q) by (intros H; discriminate H).
  split; [exact Hh|].
  destruct (parallax_outputs_bounded 14 true 800 r Hh) as (H1 & _ & H3 & _).
  exact (conj H1 H3).
Defined.

(** The progress is [NaN] exactly when the viewport height is 0 and the
    element's centre is at 0; in every other case, a viewport of height 0
    included, it is a finite number. *)
Theorem parallax_progress_NaN_iff (translateYRange : Q) (enableZoom : bool)
  (innerHeight : Q) (r : rect) :
  let card := progress (cardParallax translateYRange enableZoom innerHeight r) in
  let section := fst (sectionParallax translateYRange innerHeight r) in
  section = card /\
  (isFinite card = false <->
   (innerHeight == 0 /\ top r + height r / 2 == 0)%Q) /\
  (isFinite card = false -> card = NaN).
Proof.
  intros card section. split; [reflexivity|].
  destruct (Qeq_dec innerHeight 0) as [Hz | Hnz].
  - assert (H2 : ~ (2 == 0)%Q) by lra.
    assert (Hs : sgn innerHeight = Eq) by (apply sgn_Eq; exact Hz).
    assert (E : card =
                match sgn (innerHeight / 2 - (top r + height r / 2)) with
                | Eq => NaN
                | Gt => #1
                | Lt => #(-1)
                end).
    { unfold card, cardParallax. cbv zeta. cbn [progress].
      rewrite !(div_Fin _ 2 H2).
      change (#(innerHeight / 2) - (#(top r) + #(height r / 2)))
        with #(innerHeight / 2 - (top r + height r / 2)).
      unfold div. rewrite Hs.
      destruct (sgn (innerHeight / 2 - (top r + height r / 2)));
        reflexivity. }
    rewrite E.
    destruct (sgn (innerHeight / 2 - (top r + height r / 2))) eqn:Ec.
    + apply sgn_Eq in Ec. split; [|reflexivity]. split; [|reflexivity].
      intros _. split; [exact Hz|]. rewrite Hz in Ec.
      assert (E0 : (0 / 2 == 0)%Q) by reflexivity. rewrite E0 in Ec. lra.
    + split; [|discriminate]. split; [discriminate|].
      intros [_ Hc]. exfalso.
      assert (Hx : (innerHeight / 2 - (top r + height r / 2) == 0)%Q).
      { rewrite Hz, Hc. reflexivity. }
      apply sgn_Eq in Hx. congruence.
    + split; [|discriminate]. split; [discriminate|].
      intros [_ Hc]. exfalso.
      assert (Hx : (innerHeight / 2 - (top r + height r / 2) == 0)%Q).
      { rewrite Hz, Hc. reflexivity. }
      apply sgn_Eq in Hx. congruence.
  - destruct (progress_Fin translateYRange enableZoom innerHeight r Hnz)
      as (c & Ec & _).
    fold card in Ec. rewrite Ec. split; [|discriminate].
    split; [discriminate|]. intros [Hz _]. contradiction.
Qed.

End ParallaxTransforms.

(** ** The pointer tilt *)

Section PointerTilt.

Import JS Pointer.

(** A deviation from the centre, relative to the half-size. *)
Lemma ratio_Fin (p c : Q) :
  ~ (c == 0)%Q -> (#p - #c / #2) / (#c / #2) = #((p - c / 2) / (c / 2)).
Proof.
  intros Hc.
  assert (H2 : ~ (2 == 0)%Q) by lra.
  rewrite (div_Fin c 2 H2).
  change (#p - #(c / 2)) with #(p - c / 2).
  apply div_Fin. intros E. apply Hc.
  assert (E' : (c == c / 2 * 2)%Q) by (field; lra).
  rewrite E', E. ring.
Qed.

Lemma ratio_bounds (p c : Q) :
  (0 < c)%Q -> (0 <= p <= c)%Q ->
  (-1 <= (p - c / 2) / (c / 2) <= 1)%Q.
Proof.
  intros Hc [H0 H1].
  set (u := ((p - c / 2) / (c / 2))%Q).
  assert (Hh : (0 < c / 2)%Q) by (apply Qlt_shift_div_l; lra).
  assert (Ec : (c == 2 * (c / 2))%Q) by (field; lra).
  assert (E : (u * (c / 2) == p - c / 2)%Q).
  { unfold u. field. intros Ez. rewrite Ez in Hh. lra. }
  set (h := (c / 2)%Q) in *. clearbody u h.
  split.
  - apply Qnot_lt_le. intros Hu.
    assert ((u + 1) * h < 0)%Q by nra. nra.
  - apply Qnot_lt_le. intros Hu.
    assert (0 < (u - 1) * h)%Q by nra. nra.
Qed.

(** With the pointer inside a card of positive width and height the two
    rotations stay within 2 degrees and the two image offsets within
    8 pixels, and each offset is the corresponding rotation scaled
    (by 4 and by -4). *)
Theorem pointer_tilt_bounded (clientX clientY : Q) (rect : cardRect) :
  (0 < width rect)%Q -> (0 < height rect)%Q ->
  (left rect <= clientX <= left rect + width rect)%Q ->
  (top rect <= clientY <= top rect + height rect)%Q ->
  let t := handleMouseMove clientX clientY rect in
  exists rx ry ox oy : Q,
    rotateX t = #rx /\ rotateY t = #ry /\
    imageOffsetX t = #ox /\ imageOffsetY t = #oy /\
    (-2 <= rx <= 2)%Q /\ (-2 <= ry <= 2)%Q /\
    (-8 <= ox <= 8)%Q /\ (-8 <= oy <= 8)%Q /\
    (ox == 4 * ry)%Q /\ (oy == -4 * rx)%Q.
Proof.
  intros Hw Hh Hx Hy t.
  assert (Hwz : ~ (width rect == 0)%Q) by lra.
  assert (Hhz : ~ (height rect == 0)%Q) by lra.
  pose proof (ratio_bounds (clientX - left rect) (width rect) Hw) as Bx.
  pose proof (ratio_bounds (clientY - top rect) (height rect) Hh) as By.
  assert (Bx' := Bx ltac:(lra)). assert (By' := By ltac:(lra)).
  clear Bx By.
  set (ux := ((clientX - left rect - width rect / 2)
              / (width rect / 2))%Q) in *.
  set (uy := ((clientY - top rect - height rect / 2)
              / (height rect / 2))%Q) in *.
  assert (Ex : (#clientX - #(left rect) - #(width rect) / #2)
               / (#(width rect) / #2) = #ux)
    by (apply (ratio_Fin (clientX - left rect) (width rect) Hwz)).
  assert (Ey : (#clientY - #(top rect) - #(height rect) / #2)
               / (#(height rect) / #2) = #uy)
    by (apply (ratio_Fin (clientY - top rect) (height rect) Hhz)).
  exists (uy * -2)%Q, (ux * 2)%Q, (ux * 8)%Q, (uy * 8)%Q.
  unfold t, handleMouseMove. cbv zeta.
  cbn [rotateX rotateY imageOffsetX imageOffsetY].
  rewrite Ex, Ey.
  repeat (split; [reflexivity|]).
  repeat split; lra.
Qed.

Lemma pointer_tilt_bounded_witness :
  let rect := mkCardRect 100 200 300 400 in
  ((0 < 300)%Q /\ (0 < 400)%Q /\
   (100 <= 400 <= 100 + 300)%Q /\ (200 <= 200 <= 200 + 400)%Q) /\
  exists rx ry ox oy : Q,
    rotateX (handleMouseMove 400 200 rect) = #rx /\
    rotateY (handleMouseMove 400 200 rect) = #ry /\
    (-2 <= rx <= 2)%Q /\ (-2 <= ry <= 2)%Q.
Proof.
  intros rect.
  assert (H1 : (0 < 300)%Q) by reflexivity.
  assert (H2 : (0 < 400)%Q) by reflexivity.
  assert (H3 : (100 <= 400 <= 100 + 300)%Q)
    by (split; vm_compute; discriminate).
  assert (H4 : (200 <= 200 <= 200 + 400)%Q)
    by (split; vm_compute; discriminate).
  split; [exact (conj H1 (conj H2 (conj H3 H4)))|].
  destruct (pointer_tilt_bounded 400 200 rect H1 H2 H3 H4)
    as (rx & ry & ox & oy & E1 & E2 & _ & _ & B1 & B2 & _).
  exists rx, ry, ox, oy. exact (conj E1 (conj E2 (conj B1 B2))).
Defined.

(** With the pointer at the centre of a card of positive size the tilt is
    the one [handleMouseLeave] restores: no rotation, no offset. *)
Theorem pointer_tilt_centre (rect : cardRect) :
  (0 < width rect)%Q -> (0 < height rect)%Q ->
  let t := handleMouseMove (left rect + width rect / 2)
                           (top rect + height rect / 2) rect in
  eqv (rotateX t) (rotateX handleMouseLeave) /\
  eqv (rotateY t) (rotateY handleMouseLeave) /\
  eqv (imageOffsetX t) (imageOffsetX handleMouseLeave) /\
  eqv (imageOffsetY t) (imageOffsetY handleMouseLeave).
Proof.
  intros Hw Hh t.
  assert (Hwz : ~ (width rect == 0)%Q) by lra.
  assert (Hhz : ~ (height rect == 0)%Q) by lra.
  unfold t, handleMouseMove, handleMouseLeave. cbv zeta.
  cbn [rotateX rotateY imageOffsetX imageOffsetY].
  change (#(left rect + width rect / 2) - #(left rect))
    with #(left rect + width rect / 2 - left rect).
  change (#(top rect + height rect / 2) - #(top rect))
    with #(top rect + height rect / 2 - top rect).
  rewrite (ratio_Fin _ (width rect) Hwz), (ratio_Fin _ (height rect) Hhz).
  simpl. repeat split; field; lra.
Qed.

Lemma pointer_tilt_centre_witness :
  let rect := mkCardRect 100 200 300 400 in
  ((0 < 300)%Q /\ (0 < 400)%Q) /\
  eqv (rotateX (handleMouseMove (100 + 300 / 2) (200 + 400 / 2) rect)) #0 /\
  eqv (rotateY (handleMouseMove (100 + 300 / 2) (200 + 400 / 2) rect)) #0.
Proof.
  intros rect.
  assert (H1 : (0 < 300)%Q) by reflexivity.
  assert (H2 : (0 < 400)%Q) by reflexivity.
  split; [exact (conj H1 H2)|].
  destruct (pointer_tilt_centre rect H1 H2) as (E1 & E2 & _).
  exact (conj E1 E2).
Defined.

(** A card of width 0 has no finite sideways tilt: wherever the pointer
    is, [rotateY] and [imageOffsetX] are [NaN] or an infinity; likewise
    [rotateX] and [imageOffsetY] for a card of height 0. *)
Theorem pointer_tilt_degenerate (clientX clientY : Q) (rect : cardRect) :
  let t := handleMouseMove clientX clientY rect in
  ((width rect == 0)%Q ->
   isFinite (rotateY t) = false /\ isFinite (imageOffsetX t) = false) /\
  ((height rect == 0)%Q ->
   isFinite (rotateX t) = false /\ isFinite (imageOffsetY t) = false).
Proof.
  intros t.
  assert (Hdiv : forall a c : Q, (c == 0)%Q ->
            forall k : Q, ~ (k == 0)%Q ->
            isFinite (#a / (#c / #2) * #k) = false).
  { intros a c Hc k Hk.
    assert (H2 : ~ (2 == 0)%Q) by lra.
    rewrite (div_Fin c 2 H2).
    assert (Hz : sgn (c / 2) = Eq) by (apply sgn_Eq; rewrite Hc; reflexivity).
    unfold div. rewrite Hz.
    assert (Hks : sgn k <> Eq) by (intros E; apply sgn_Eq in E; contradiction).
    destruct (sgn a); simpl; destruct (sgn k); try reflexivity;
      contradiction. }
  unfold t, handleMouseMove. cbv zeta.
  cbn [rotateX rotateY imageOffsetX imageOffsetY].
  split; intros Hz.
  - change (#clientX - #(left rect) - #(width rect) / #2)
      with (#(clientX - left rect) - #(width rect) / #2).
    assert (H2 : ~ (2 == 0)%Q) by lra.
    rewrite (div_Fin (width rect) 2 H2) at 1 3.
    change (#(clientX - left rect) - #(width rect / 2))
      with #(clientX - left rect - width rect / 2).
    split; apply Hdiv; try exact Hz; intros E; discriminate E.
  - change (#clientY - #(top rect) - #(height rect) / #2)
      with (#(clientY - top rect) - #(height rect) / #2).
    assert (H2 : ~ (2 == 0)%Q) by lra.
    rewrite (div_Fin (height rect) 2 H2) at 1 3.
    change (#(clientY - top rect) - #(height rect / 2))
      with #(clientY - top rect - height rect / 2).
    split; apply Hdiv; try exact Hz; intros E; discriminate E.
Qed.

Lemma pointer_tilt_degenerate_witness :
  let rect := mkCardRect 100 200 0 400 in
  (0 == 0)%Q /\
  isFinite (rotateY (handleMouseMove 100 300 rect)) = false.
Proof.
  intros rect.
  assert (H : (width rect == 0)%Q) by reflexivity.
  split; [exact H|].
  exact (proj1 (proj1 (pointer_tilt_degenerate 100 300 rect) H)).
Defined.

End PointerTilt.

(** ** The frame scheduling of the parallax hooks *)

Section HookScheduling.

Import Scheduler.

Variable T : Type.
Variable compute : Q -> Parallax.rect -> T.

Local Abbreviation state := (Scheduler.state T).
Local Abbreviation step := (Scheduler.step T compute).
Local Abbreviation steps := (Scheduler.steps T compute).
Local Abbreviation updateParallax := (Scheduler.updateParallax T compute).
Local Abbreviation mount := (Scheduler.mount T compute).

Lemma scheduled_requestFrame (s : state) :
  (1 <= nextId s)%nat -> pending s = [] -> isVisible s = true ->
  scheduled (requestFrame T s).
Proof.
  intros Hn Hp Hv. split; [simpl; lia|]. left. split; [exact Hv|].
  exists (nextId s). simpl. rewrite Hp. repeat split. exact Hn.
Qed.

Lemma scheduled_updateParallax (innerHeight : Q) (r : Parallax.rect)
  (s : state) :
  (1 <= nextId s)%nat -> pending s = [] ->
  scheduled (updateParallax innerHeight r s).
Proof.
  intros Hn Hp. unfold Scheduler.updateParallax.
  destruct (isVisible s) eqn:Ev; simpl.
  - apply scheduled_requestFrame; simpl; assumption.
  - split; [exact Hn|]. right. repeat split; assumption.
Qed.

Lemma scheduled_onEntry (e : bool) (s : state) :
  scheduled s -> scheduled (onEntry T e s).
Proof.
  intros [Hn [(Hv & id & Hi & Hr & Hp) | (Hv & Hr & Hp)]];
    unfold onEntry; cbv zeta; destruct e; simpl; rewrite Hr; simpl.
  - destruct id as [|id]; [inversion Hi|]. simpl.
    split; [exact Hn|]. left. split; [reflexivity|].
    exists (S id). repeat split; assumption.
  - destruct id as [|id]; [inversion Hi|]. simpl.
    unfold cancelCurrent. simpl. rewrite Hr.
    split; [exact Hn|]. right. simpl. rewrite Hp. simpl.
    rewrite Nat.eqb_refl. repeat split.
  - apply scheduled_requestFrame; simpl; try assumption; reflexivity.
  - split; [exact Hn|]. right. repeat split; assumption.
Qed.

Lemma scheduled_step (s s' : state) :
  scheduled s -> step s s' -> scheduled s'.
Proof.
  intros I Hs. destruct Hs as [s entries _ | s _ | s id ih r Hin].
  - unfold onIntersection. revert s I.
    induction entries as [|e l IH]; intros s I; simpl; [exact I|].
    apply IH, scheduled_onEntry, I.
  - unfold handleScroll.
    destruct I as [Hn [(Hv & id & Hi & Hr & Hp) | (Hv & Hr & Hp)]];
      rewrite Hv, Hr; simpl.
    + destruct id as [|id]; [inversion Hi|]. simpl.
      split; [exact Hn|]. left. split; [exact Hv|].
      exists (S id). repeat split; assumption.
    + split; [exact Hn|]. right. repeat split; assumption.
  - destruct I as [Hn [(Hv & i & Hi & Hr & Hp) | (Hv & Hr & Hp)]].
    + rewrite Hp in Hin. destruct Hin as [E | []]. subst id.
      apply scheduled_updateParallax; simpl; [exact Hn|].
      rewrite Hp. simpl. rewrite Nat.eqb_refl. reflexivity.
    + rewrite Hp in Hin. destruct Hin.
Qed.

Lemma scheduled_steps (s s' : state) :
  scheduled s -> steps s s' -> scheduled s'.
Proof.
  intros I Hs. induction Hs as [s | s s1 s2 _ IH Hstep].
  - exact I.
  - apply (scheduled_step s1 s2); [apply IH; exact I | exact Hstep].
Qed.

Lemma hook_single_callback_aux (innerHeight : Q) (r : Parallax.rect)
  (s0 s : state) :
  pending s0 = [] -> (1 <= nextId s0)%nat ->
  steps (mount false innerHeight r s0) s -> scheduled s.
Proof.
  intros Hp Hn Hs.
  apply (scheduled_steps (mount false innerHeight r s0) s); [|exact Hs].
  unfold Scheduler.mount. apply scheduled_updateParallax; assumption.
Qed.

(** Once the effect has run (on fresh refs, or again after a cleanup, when
    no callback is registered), the hook keeps its discipline through every
    observer callback, scroll event and frame: while the element is visible
    exactly one [updateParallax] callback is registered and [rafIdRef]
    holds its id, and while it is not visible none is registered and
    [rafIdRef] is [null]. *)
Theorem hook_single_callback (innerHeight : Q) (r : Parallax.rect)
  (s0 s : state) :
  pending s0 = [] -> (1 <= nextId s0)%nat ->
  steps (mount false innerHeight r s0) s ->
  (1 <= nextId s)%nat /\
  ((isVisible s = true /\
    exists id, (1 <= id)%nat /\ rafId s = Some id /\ pending s = [id]) \/
   (isVisible s = false /\ rafId s = None /\ pending s = [])).
Proof.
  intros Hp Hn Hs.
  exact (hook_single_callback_aux innerHeight r s0 s Hp Hn Hs).
Qed.

(** While the element is not visible nothing recomputes the transform:
    no step from such a state changes it. *)
Theorem hook_idle_off_screen (innerHeight : Q) (r : Parallax.rect)
  (s0 s s' : state) :
  pending s0 = [] -> (1 <= nextId s0)%nat ->
  steps (mount false innerHeight r s0) s ->
  isVisible s = false -> step s s' ->
  transform s' = transform s.
Proof.
  intros Hp Hn Hs Hv Hstep.
  destruct (hook_single_callback_aux innerHeight r s0 s Hp Hn Hs)
    as [_ [(Hv' & _) | (_ & Hr & Hpe)]]; [congruence|].
  destruct Hstep as [s entries _ | s _ | s id ih r' Hin].
  - unfold onIntersection. clear Hv Hr Hpe Hs.
    revert s. induction entries as [|e l IH]; intros s; simpl; [reflexivity|].
    rewrite IH. unfold onEntry. cbv zeta.
    destruct e; simpl; destruct (truthy (rafId s)); simpl; try reflexivity.
    unfold cancelCurrent. simpl. destruct (rafId s); reflexivity.
  - unfold handleScroll. rewrite Hv. reflexivity.
  - rewrite Hpe in Hin. destruct Hin.
Qed.

(** The cleanup, run on any state the hook reaches, leaves no callback
    registered and the listeners detached: nothing of the hook runs
    afterwards. *)
Theorem hook_cleanup_stops (innerHeight : Q) (r : Parallax.rect)
  (s0 s : state) :
  pending s0 = [] -> (1 <= nextId s0)%nat ->
  steps (mount false innerHeight r s0) s ->
  pending (cleanup s) = [] /\ attached (cleanup s) = false /\
  (forall s', ~ step (cleanup s) s').
Proof.
  intros Hp Hn Hs.
  destruct (hook_single_callback_aux innerHeight r s0 s Hp Hn Hs)
    as [_ [(Hv & id & Hi & Hr & Hpe) | (_ & Hr & Hpe)]].
  - assert (E : pending (cleanup s) = []).
    { unfold cleanup. cbv zeta. simpl. rewrite Hr.
      destruct id as [|id]; [inversion Hi|]. simpl.
      unfold cancelCurrent. simpl. rewrite Hr. simpl. rewrite Hpe. simpl.
      rewrite Nat.eqb_refl. reflexivity. }
    assert (Ea : attached (cleanup s) = false).
    { unfold cleanup. cbv zeta. simpl. rewrite Hr.
      destruct id as [|id]; [inversion Hi|]. simpl.
      unfold cancelCurrent. simpl. rewrite Hr. reflexivity. }
    split; [exact E|]. split; [exact Ea|].
    intros s' Hstep. inversion Hstep; subst; try congruence.
    rewrite E in H. destruct H.
  - assert (Ec : cleanup s = set_attached T false s).
    { unfold cleanup. cbv zeta. simpl. rewrite Hr. reflexivity. }
    rewrite Ec. split; [exact Hpe|]. split; [reflexivity|].
    intros s' Hstep. inversion Hstep; subst; try discriminate.
    simpl in H. rewrite Hpe in H. destruct H.
Qed.

(** Under [prefers-reduced-motion] the effect attaches nothing: the hook
    never leaves its initial state, and the transform stays the static
    one. *)
Theorem hook_reduced_motion (innerHeight : Q) (r : Parallax.rect)
  (s : state) :
  steps (mount true innerHeight r initial) s ->
  s = initial /\ transform s = None.
Proof.
  intros Hs. remember (mount true innerHeight r initial) as s1 eqn:E1.
  assert (E : s = initial).
  { induction Hs as [s | s sa sb _ IH Hstep].
    - exact E1.
    - specialize (IH E1). subst sa.
      inversion Hstep as [u entries Ha | u Ha | u id ih r' Hin];
        subst; try discriminate. destruct Hin. }
  split; [exact E | rewrite E; reflexivity].
Qed.

End HookScheduling.

(** ** The contact form and the chat widget *)

Section FormAndWidget.

Import Kommo Contact Widget.

(** The form ends in [Success] whatever boolean the submission reports (the
    result is not looked at), and stays in [Submitting] with a rejected
    handler when the submission rejects.  With [sendToKommo] the first case
    is the only one: every payload ends in [Success], after the payload was
    logged and the 1500 ms timer ran. *)
Theorem handleSubmit_outcomes :
  (forall (send : FormData -> Kommo.async bool) (data : FormData)
          (tr tr' : list event),
     (forall ok, send data tr = (tr', Fulfilled ok) ->
                 handleSubmit send data tr = (Success, tr', Fulfilled tt)) /\
     (forall err, send data tr = (tr', Rejected err) ->
                  handleSubmit send data tr = (Submitting, tr', Rejected err)))
  /\
  (forall (data : FormData) (tr : list event),
     handleSubmit sendToKommo data tr =
       (Success,
        tr ++ [ConsoleLog "Sending data to Kommo CRM integration..." data;
               Timeout 1500],
        Fulfilled tt)).
Proof.
  split.
  - intros send data tr tr'. split; intros x E; unfold handleSubmit;
      rewrite E; reflexivity.
  - intros data tr. unfold handleSubmit, sendToKommo, bind, sleep, emit,
      try_catch, ret. rewrite <- app_assoc. reflexivity.
Qed.

Lemma insertBeforeFirst_none (t : element) (l : list element) :
  existsb (isTag "script") l = false ->
  insertBeforeFirst "script" t l = l.
Proof.
  induction l as [|e l IH]; simpl; [reflexivity|].
  intros H. apply orb_false_iff in H. destruct H as [H1 H2].
  rewrite H1, (IH H2). reflexivity.
Qed.

Lemma insertBeforeFirst_some (t : element) (pre post : list element)
  (e : element) :
  existsb (isTag "script") pre = false -> isTag "script" e = true ->
  insertBeforeFirst "script" t (pre ++ e :: post) = pre ++ t :: e :: post.
Proof.
  intros Hpre He. induction pre as [|x pre IH]; simpl.
  - rewrite He. reflexivity.
  - simpl in Hpre. apply orb_false_iff in Hpre. destruct Hpre as [H1 H2].
    rewrite H1, (IH H2). reflexivity.
Qed.

(** Where [initKommoWidget] puts its script element: right before the
    first script element of the document, all other elements staying in
    place; on a document without any script element it inserts nothing. *)
Theorem initKommoWidget_insertion (g : global) :
  (forall (pre post : list element) (e : element),
     existsb (isTag "script") pre = false -> isTag "script" e = true ->
     elements (initKommoWidget true (mkPage g (pre ++ e :: post)))
     = pre ++ loader :: e :: post) /\
  (forall l : list element,
     existsb (isTag "script") l = false ->
     elements (initKommoWidget true (mkPage g l)) = l).
Proof.
  split.
  - intros pre post e Hpre He. simpl.
    apply insertBeforeFirst_some; assumption.
  - intros l Hl. simpl. apply insertBeforeFirst_none. exact Hl.
Qed.

Lemma first_script_split (l : list element) :
  existsb (isTag "script") l = true ->
  exists pre e post,
    l = pre ++ e :: post /\
    existsb (isTag "script") pre = false /\ isTag "script" e = true.
Proof.
  induction l as [|x l IH]; [discriminate|].
  cbn [existsb]. destruct (isTag "script" x) eqn:Ex.
  - intros _. exists [], x, l. repeat split. exact Ex.
  - intros H. destruct (IH H) as (pre & e & post & E & Hpre & He).
    exists (x :: pre), e, post. rewrite E. repeat split; [|exact He].
    cbn [existsb]. rewrite Ex. exact Hpre.
Qed.

Lemma init_loaders (p : page) :
  hasScript p = true ->
  loaders (initKommoWidget true p) = S (loaders p) /\
  hasScript (initKommoWidget true p) = true.
Proof.
  unfold hasScript, loaders. destruct p as [g l]. cbn [elements].
  intros H. destruct (first_script_split l H) as (pre & e & post & E & Hp & He).
  subst l.
  assert (Ei : elements (initKommoWidget true (mkPage g (pre ++ e :: post)))
               = pre ++ loader :: e :: post)
    by (apply (insertBeforeFirst_some loader pre post e Hp He)).
  rewrite Ei. split.
  - rewrite !filter_app, !length_app.
    change (filter (fun e0 => String.eqb (id e0) "amo_social_button")
              (loader :: e :: post))
      with (loader :: filter (fun e0 => String.eqb (id e0) "amo_social_button")
                        (e :: post)).
    cbn [List.length]. lia.
  - rewrite existsb_app. cbn [existsb]. rewrite orb_true_r. reflexivity.
Qed.

(** Calling [initKommoWidget] again does not reset the stub: the calls
    queued in between are still queued.  It does insert its script element
    again: on a page with a script element every call adds one more element
    with the widget's id. *)
Theorem initKommoWidget_twice (p : page) (args : list string) :
  amoSocialButton p = Absent -> hasScript p = true ->
  let p1 := callGlobal args (initKommoWidget true p) in
  let p2 := initKommoWidget true p1 in
  queued p1 = [args] /\ queued p2 = [args] /\
  loaders p2 = S (S (loaders p)).
Proof.
  intros Ha Hs p1 p2.
  destruct (init_loaders p Hs) as [L1 S1].
  assert (E1 : amoSocialButton (initKommoWidget true p) = Stub None)
    by (simpl; rewrite Ha; reflexivity).
  assert (Q1 : queued p1 = [args])
    by (unfold p1, callGlobal, queued; rewrite E1; reflexivity).
  assert (El : elements p1 = elements (initKommoWidget true p))
    by (unfold p1, callGlobal; rewrite E1; reflexivity).
  assert (S1' : hasScript p1 = true) by (unfold hasScript; rewrite El; exact S1).
  destruct (init_loaders p1 S1') as [L2 _].
  split; [exact Q1|]. split.
  - unfold p2, queued. simpl. unfold p1, callGlobal. rewrite E1. reflexivity.
  - fold p2 in L2. rewrite L2. unfold loaders at 1. rewrite El.
    fold (loaders (initKommoWidget true p)). rewrite L1. reflexivity.
Qed.

End FormAndWidget.

(** ** The theorems on concrete sessions *)

Section SessionWitnesses.

Import JS Hero HeroInv Session.

(** The example session is one the full path can take. *)
Lemma session_steps : steps hero_config s0 s3.
Proof.
  assert (Ha : media_evolves (vA s0) a1).
  { constructor; try (vm_compute; reflexivity).
    intros H _. vm_compute in H. discriminate H. }
  assert (Hb : media_evolves (vB s0) b1).
  { constructor; try (vm_compute; reflexivity).
    intros _ H. discriminate H. }
  assert (I1 : In 1%nat (frames s1)) by (vm_compute; left; reflexivity).
  assert (I2 : In 2%nat (frames s2)) by (vm_compute; left; reflexivity).
  apply steps_next with (w1 := s2).
  - apply steps_next with (w1 := s1).
    + apply steps_next with (w1 := s0).
      * apply steps_refl.
      * exact (step_media hero_config s0 a1 b1 Ha Hb).
    + exact (step_frame hero_config s1 1 1000 1000 I1).
  - exact (step_frame hero_config s2 2 2400 2400 I2).
Defined.

Lemma s3_settled : isFading s3 = false.
Proof. vm_compute. reflexivity. Defined.

Lemma full_session_one_frame_witness :
  steps hero_config s0 s3 /\
  exists id, (1 <= id)%nat /\ frames s3 = [id] /\ rafRef s3 = Some id.
Proof.
  split; [exact session_steps|].
  exact (full_session_one_frame hero_config Examples.unloaded
           Examples.unloaded s3 session_steps).
Defined.

Lemma unmount_stops_loop_witness :
  steps hero_config s0 s3 /\
  frames (unmount s3) = [] /\
  metaA (unmount s3) = false /\ metaB (unmount s3) = false.
Proof.
  split; [exact session_steps|].
  destruct (unmount_stops_loop hero_config Examples.unloaded
              Examples.unloaded s3 session_steps) as (H1 & H2 & H3 & _).
  exact (conj H1 (conj H2 H3)).
Defined.

Lemma full_session_layers_witness :
  (steps hero_config s0 s3 /\ isFading s3 = false) /\
  eqv (opacity_of (activeIdx s3) s3) #1 /\
  eqv (opacity_of (flip (activeIdx s3)) s3) #0.
Proof.
  split; [exact (conj session_steps s3_settled)|].
  exact (full_session_layers hero_config Examples.unloaded
           Examples.unloaded s3 session_steps s3_settled).
Defined.

Lemma full_session_idle_other_witness :
  (steps hero_config s0 s3 /\ isFading s3 = false) /\
  paused (video_of (flip (activeIdx s3)) s3) = true.
Proof.
  split; [exact (conj session_steps s3_settled)|].
  exact (full_session_idle_other hero_config Examples.unloaded
           Examples.unloaded s3 session_steps s3_settled).
Defined.

Lemma fade_completes_iff_witness :
  let w := Examples.w_fade 1000 in
  ((0 < fadeSeconds hero_config)%Q /\
   isFading (trigger_step hero_config 0 w) = true /\
   (fadeSeconds hero_config * 1000
    <= 2400 - fadeStart (trigger_step hero_config 0 w))%Q) /\
  isFading (tick hero_config 0 2400 w) = false /\
  activeIdx (tick hero_config 0 2400 w) = flip (activeIdx w).
Proof.
  intros w.
  assert (H0 : (0 < fadeSeconds hero_config)%Q) by reflexivity.
  assert (H1 : isFading (trigger_step hero_config 0 w) = true)
    by (vm_compute; reflexivity).
  assert (H2 : (fadeSeconds hero_config * 1000
                <= 2400 - fadeStart (trigger_step hero_config 0 w))%Q)
    by (vm_compute; discriminate).
  split; [exact (conj H0 (conj H1 H2))|].
  exact (proj2 (fade_completes_iff hero_config 0 2400 w H0 H1) H2).
Defined.

Lemma fading_frame_keeps_start_witness :
  let w := Examples.w_fade 1000 in
  isFading w = true /\
  fadeStart (tick hero_config 0 1700 w) = fadeStart w /\
  playCalls (vB (tick hero_config 0 1700 w)) = playCalls (vB w).
Proof.
  intros w.
  assert (H : isFading w = true) by reflexivity.
  split; [exact H|].
  destruct (fading_frame_keeps_start hero_config 0 1700 w H)
    as (H1 & _ & H3 & _).
  exact (conj H1 H3).
Defined.

Lemma frame_idle_without_duration_witness :
  (isFading s0 = false /\
   duration (video_of (activeIdx s0) s0) = NaN) /\
  tick hero_config 16 16 s0 = requestFrame s0.
Proof.
  assert (H1 : isFading s0 = false) by (vm_compute; reflexivity).
  assert (H2 : duration (video_of (activeIdx s0) s0) = NaN)
    by (vm_compute; reflexivity).
  split; [exact (conj H1 H2)|].
  exact (frame_idle_without_duration hero_config 16 16 s0 H1
           (or_introl H2)).
Defined.

Lemma refused_autoplay_fade_witness :
  let other := flip (activeIdx w_refused) in
  let w1 := tick hero_config 1000 1000 w_refused in
  let w2 := tick hero_config 2400 2400 (with_videos (vA w1) (vB w1) w1) in
  (triggers hero_config w_refused = true /\
   blocked (video_of other w_refused) = true /\
   isFading w1 = true /\ isFading w2 = false) /\
  paused (video_of other w1) = true /\
  paused (vA w2) = true /\ paused (vB w2) = true.
Proof.
  intros other w1 w2.
  assert (Ma : media_evolves (vA w1) (vA w1)).
  { constructor; try reflexivity.
    intros H _. vm_compute in H. discriminate H. }
  assert (Mb : media_evolves (vB w1) (vB w1)).
  { constructor; try reflexivity.
    intros H1 H2. rewrite H1 in H2. discriminate H2. }
  assert (T1 : triggers hero_config w_refused = true)
    by (vm_compute; reflexivity).
  assert (T2 : blocked (video_of other w_refused) = true)
    by (vm_compute; reflexivity).
  assert (T3 : isFading w1 = true) by (vm_compute; reflexivity).
  assert (T4 : isFading w2 = false) by (vm_compute; reflexivity).
  split; [exact (conj T1 (conj T2 (conj T3 T4)))|].
  destruct (refused_autoplay_fade hero_config 1000 1000 2400 2400 w_refused
              (vA w1) (vB w1) T1 T2) as (_ & (P1 & _) & P2).
  exact (conj P1 (P2 T3 Ma Mb T4)).
Defined.

End SessionWitnesses.

Section HookWitnesses.

Import Scheduler HookSession.

Lemma hook_session_steps :
  steps _ compute h0 h3 /\ steps _ compute h0 h2.
Proof.
  assert (S1 : steps _ compute h0 h1).
  { apply steps_next with (s1 := h0); [apply steps_refl|].
    apply (step_observe _ compute h0 [true]). reflexivity. }
  assert (S2 : steps _ compute h0 h2).
  { apply steps_next with (s1 := h1); [exact S1|].
    apply (step_frame _ compute h1 1 800 geometry). left. reflexivity. }
  split; [|exact S2].
  apply steps_next with (s1 := h2); [exact S2|].
  apply (step_observe _ compute h2 [false]). reflexivity.
Defined.

Lemma hook_single_callback_witness :
  (pending (@initial Parallax.transform) = [] /\
   (1 <= nextId (@initial Parallax.transform))%nat /\
   steps _ compute h0 h2) /\
  isVisible h2 = true /\ rafId h2 = Some 2%nat /\ pending h2 = [2%nat].
Proof.
  split; [exact (conj eq_refl (conj (le_n 1) (proj2 hook_session_steps)))|].
  destruct (hook_single_callback _ compute 800 geometry initial h2
              eq_refl (le_n 1) (proj2 hook_session_steps))
    as [_ [(Hv & id & _ & Hr & Hp) | (Hv & _)]].
  - exact (conj Hv (conj eq_refl eq_refl)).
  - discriminate Hv.
Defined.

Lemma hook_idle_off_screen_witness :
  (steps _ compute h0 h3 /\ isVisible h3 = false /\
   step _ compute h3 (handleScroll h3)) /\
  transform (handleScroll h3) = transform h3.
Proof.
  assert (Hs : step _ compute h3 (handleScroll h3))
    by (apply step_scroll; reflexivity).
  split; [exact (conj (proj1 hook_session_steps) (conj eq_refl Hs))|].
  exact (hook_idle_off_screen _ compute 800 geometry initial h3
           (handleScroll h3) eq_refl (le_n 1) (proj1 hook_session_steps)
           eq_refl Hs).
Defined.

Lemma hook_cleanup_stops_witness :
  steps _ compute h0 h2 /\
  pending (cleanup h2) = [] /\ attached (cleanup h2) = false.
Proof.
  split; [exact (proj2 hook_session_steps)|].
  destruct (hook_cleanup_stops _ compute 800 geometry initial h2
              eq_refl (le_n 1) (proj2 hook_session_steps)) as (H1 & H2 & _).
  exact (conj H1 H2).
Defined.

Lemma hook_reduced_motion_witness :
  steps _ compute (mount _ compute true 800 geometry initial) initial /\
  transform (@initial Parallax.transform) = None.
Proof.
  assert (Hs : steps _ compute (mount _ compute true 800 geometry initial)
                 initial) by apply steps_refl.
  split; [exact Hs|].
  exact (proj2 (hook_reduced_motion _ compute 800 geometry initial Hs)).
Defined.

End HookWitnesses.

Section WidgetWitness.

Import Widget.

Lemma initKommoWidget_twice_witness :
  let p := mkPage Absent [mkElement "script" "app" "/main.js" false] in
  let p1 := callGlobal ["init"%string] (initKommoWidget true p) in
  (amoSocialButton p = Absent /\ hasScript p = true) /\
  queued (initKommoWidget true p1) = [["init"%string]] /\
  loaders (initKommoWidget true p1) = 2%nat.
Proof.
  intros p p1.
  split; [split; reflexivity|].
  destruct (initKommoWidget_twice p ["init"%string] eq_refl eq_refl)
    as (_ & H2 & H3).
  exact (conj H2 H3).
Defined.

End WidgetWitness.
